(** * TextTools.h: lookup-table transforms over ASCII byte buffers

    A shallow embedding of [src/TextTools.h].  A C++ [char] is one of the 256
    values of [Byte.byte]; [static_cast<unsigned char>(c)] used as an array
    index is [Byte.to_nat c].  A [std::string] is a [list byte] (it may hold
    NUL bytes), mutated in place through stdpp's list insert and truncated by
    stdpp's [resize], which is what [std::string::resize] does.  The
    [std::unordered_map]s are [gmap]s; a range-for over one visits every entry
    once in an order the language leaves open, which here is the order of
    [map_to_list]. *)

From Stdlib Require Import Strings.Byte.
From stdpp Require Import base decidable countable list strings gmap fin_maps.

Local Open Scope nat_scope.

(** ** Bytes *)

Abbreviation char := byte (only parsing).

#[global] Instance byte_eq_dec : EqDecision byte := Byte.byte_eq_dec.

#[global] Instance byte_inhabited : Inhabited byte := populate x00.

#[global] Instance byte_countable : Countable byte :=
  inj_countable Byte.to_N Byte.of_N Byte.of_to_N.

(** [static_cast<char>(i)] for an [int] index: the low eight bits. *)
Definition char_of_index (i : nat) : byte :=
  default x00 (Byte.of_nat (i mod 256)).

(** [static_cast<unsigned char>(c)] used as an index. *)
Definition index_of_char (c : byte) : nat := Byte.to_nat c.

(** ** Type aliases and constants *)

Abbreviation CharModMap := (gmap byte (option byte)) (only parsing).
Abbreviation ReplacementMap := (gmap byte byte) (only parsing).

(** [std::array<char, 256>]: a list that well-formed tables keep at 256 cells. *)
Abbreviation LookupTable := (list byte) (only parsing).

Definition table_size : nat := 256.

Module Constants.
Definition REMOVAL_SENTINEL : byte := x00.
End Constants.

Module detail.

(** [table[static_cast<unsigned char>(c)]] *)
Definition table_at (table : LookupTable) (c : byte) : byte :=
  default x00 (table !! index_of_char c).

(** [table[static_cast<unsigned char>(c)] = v] *)
Definition table_set (table : LookupTable) (c v : byte) : LookupTable :=
  <[index_of_char c := v]> table.

(** [LookupTable table{}] followed by the loop [for i in 0..255]. *)
Definition prepare_identity_table : LookupTable :=
  foldl (fun table i => <[i := char_of_index i]> table)
        (replicate table_size x00) (seq 0 256).

(** The body of the range-for in [create_table_checked]. *)
Definition apply_rule (lookup_table : LookupTable)
    (rule : byte * option byte) : LookupTable :=
  let '(char_to_modify, action) := rule in
  match action with
  | Some replacement => table_set lookup_table char_to_modify replacement
  | None => table_set lookup_table char_to_modify Constants.REMOVAL_SENTINEL
  end.

Definition create_table_checked (rules : CharModMap) : LookupTable * bool :=
  let lookup_table := prepare_identity_table in
  if decide (rules = ∅) then (lookup_table, true)
  else (foldl apply_rule lookup_table (map_to_list rules), false).

(** One iteration of the scan of [replace_and_remove]: the state is the
    buffer and the write cursor, [read_ptr] is the loop variable. *)
Definition rr_step (lookup_table : LookupTable)
    (st : list byte * nat) (read_ptr : nat) : list byte * nat :=
  let '(text, write_ptr) := st in
  match text !! read_ptr with
  | Some c =>
      let replacement := table_at lookup_table c in
      if decide (replacement ≠ Constants.REMOVAL_SENTINEL)
      then (<[write_ptr := replacement]> text, S write_ptr)
      else (text, write_ptr)
  | None => (text, write_ptr)
  end.

Definition replace_and_remove (text : list byte)
    (lookup_table : LookupTable) (is_identity : bool) : list byte :=
  if bool_decide (text = []) || is_identity then text
  else
    let '(text', write_ptr) :=
      foldl (rr_step lookup_table) (text, 0) (seq 0 (length text)) in
    resize write_ptr x00 text'.

Definition apply_replacement (replacement_map : LookupTable)
    (rule : byte * byte) : LookupTable :=
  let '(char_to_replace, replacement) := rule in
  table_set replacement_map char_to_replace replacement.

Definition create_replacement_table (replacements : ReplacementMap)
    : LookupTable :=
  foldl apply_replacement prepare_identity_table (map_to_list replacements).

(** One iteration of [for (char& c : input_text)], at position [i]. *)
Definition rc_step (replacement_map : LookupTable)
    (input_text : list byte) (i : nat) : list byte :=
  match input_text !! i with
  | Some c => <[i := table_at replacement_map c]> input_text
  | None => input_text
  end.

Definition replace_chars (input_text : list byte)
    (replacement_map : LookupTable) : list byte :=
  if bool_decide (input_text = []) then input_text
  else foldl (rc_step replacement_map) input_text
             (seq 0 (length input_text)).

End detail.

(** ** Public API *)

Definition ascii_char_replace_remove_once (text : list byte)
    (rules : CharModMap) : list byte :=
  let '(lookup_table, is_identity) := detail.create_table_checked rules in
  detail.replace_and_remove text lookup_table is_identity.

Module ReusableASCIICharEditor.
Record t := Build
  { m_lookup_table : LookupTable;
    m_is_identity : bool }.

Definition make (rules : CharModMap) : t :=
  let result := detail.create_table_checked rules in
  {| m_lookup_table := result.1; m_is_identity := result.2 |}.

Definition apply (self : t) (text : list byte) : list byte :=
  detail.replace_and_remove text (m_lookup_table self) (m_is_identity self).

Definition call (self : t) (text : list byte) : list byte := apply self text.
End ReusableASCIICharEditor.

Definition ascii_replace_once (text : list byte)
    (replacements : ReplacementMap) : list byte :=
  if decide (replacements = ∅) then text
  else
    let replacement_table := detail.create_replacement_table replacements in
    detail.replace_chars text replacement_table.

Module ReusableCharReplacer.
Record t := Build
  { m_is_empty : bool;
    m_replacement_table : LookupTable }.

Definition make (replacements : ReplacementMap) : t :=
  {| m_is_empty := bool_decide (replacements = ∅);
     m_replacement_table := detail.create_replacement_table replacements |}.

Definition apply (self : t) (text : list byte) : list byte :=
  if m_is_empty self then text
  else detail.replace_chars text (m_replacement_table self).

Definition call (self : t) (text : list byte) : list byte := apply self text.
End ReusableCharReplacer.

(** ** Trimming *)

(** [make_trimmable_lookup]: an all-false [std::array<bool, 256>] with seven
    cells set. *)
Definition make_trimmable_lookup : list bool :=
  let table := replicate 256 false in
  let table := <[index_of_char x20 := true]> table in (* ' '  *)
  let table := <[index_of_char x09 := true]> table in (* '\t' *)
  let table := <[index_of_char x0a := true]> table in (* '\n' *)
  let table := <[index_of_char x0d := true]> table in (* '\r' *)
  let table := <[index_of_char x0c := true]> table in (* '\f' *)
  let table := <[index_of_char x0b := true]> table in (* '\v' *)
  let table := <[index_of_char x60 := true]> table in (* '`'  *)
  table.

Definition IS_TRIMMABLE (c : byte) : bool :=
  default false (make_trimmable_lookup !! index_of_char c).

(** [while (first < last_letter && IS_TRIMMABLE[*first]) ++first;]
    The loop runs at most [length text] times, which is the fuel. *)
Fixpoint find_first (fuel : nat) (text : list byte) (first : nat) : nat :=
  match fuel with
  | 0 => first
  | S fuel' =>
      match text !! first with
      | Some c =>
          if bool_decide (first < length text) && IS_TRIMMABLE c
          then find_first fuel' text (S first)
          else first
      | None => first
      end
  end.

(** [while (last > first && IS_TRIMMABLE[*(last - 1)]) --last;] *)
Fixpoint find_last (fuel : nat) (text : list byte) (first last : nat) : nat :=
  match fuel with
  | 0 => last
  | S fuel' =>
      if bool_decide (first < last) then
        match text !! (last - 1) with
        | Some c =>
            if IS_TRIMMABLE c then find_last fuel' text first (last - 1)
            else last
        | None => last
        end
      else last
  end.

(** The state of the compacting loop of [trim_all]. *)
Record trim_state := TrimState
  { ts_text : list byte;
    ts_write_ptr : nat;
    ts_previous_was_trimmable : bool }.

Definition trim_step (st : trim_state) (read_ptr : nat) : trim_state :=
  match ts_text st !! read_ptr with
  | Some c =>
      if IS_TRIMMABLE c then
        if negb (ts_previous_was_trimmable st) then
          TrimState (<[ts_write_ptr st := x20]> (ts_text st))
                    (S (ts_write_ptr st)) true
        else st
      else
        TrimState (<[ts_write_ptr st := c]> (ts_text st))
                  (S (ts_write_ptr st)) false
  | None => st
  end.

Definition trim_all (input_text : list byte) : list byte :=
  if bool_decide (input_text = []) then input_text
  else
    let last_letter := length input_text in
    let first := find_first (length input_text) input_text 0 in
    if bool_decide (first = last_letter) then []
    else
      let last := find_last (length input_text) input_text first last_letter in
      let st := foldl trim_step (TrimState input_text 0 false)
                      (seq first (last - first)) in
      resize (ts_write_ptr st) x00 (ts_text st).

(** ** Reference notions the properties are stated with *)

(** A well-formed [std::array<char, 256>]. *)
Definition wf_table (table : LookupTable) : Prop := length table = table_size.

(** The filter-map of the scan: mapped bytes, without those equal to the
    sentinel. *)
Definition mapped_and_kept (table : LookupTable) (text : list byte)
    : list byte :=
  filter (fun m => m ≠ Constants.REMOVAL_SENTINEL)
         (detail.table_at table <$> text).

(** What a rule set asks for at byte [b]. *)
Definition rule_target (rules : gmap byte (option byte)) (b : byte) : byte :=
  match rules !! b with
  | Some (Some replacement) => replacement
  | Some None => Constants.REMOVAL_SENTINEL
  | None => b
  end.

(** What a replacement map asks for at byte [b]. *)
Definition replacement_target (replacements : gmap byte byte) (b : byte)
    : byte :=
  default b (replacements !! b).

(** The trimmable set as the specification lists it. *)
Definition trimmable_set : list byte := [x20; x09; x0a; x0d; x0c; x0b; x60].

Definition trimmable (c : byte) : Prop := IS_TRIMMABLE c = true.

(** A word: a non-empty run of bytes that are not trimmable. *)
Definition is_word (w : list byte) : Prop :=
  w ≠ [] ∧ Forall (fun c => IS_TRIMMABLE c = false) w.

(** A gap: a non-empty run of trimmable bytes. *)
Definition is_gap (g : list byte) : Prop :=
  g ≠ [] ∧ Forall trimmable g.

(** A buffer with a non-trimmable byte, cut into its maximal runs: leading
    trimmable bytes, then words each followed by a gap, a last word, and the
    trailing trimmable bytes. *)
Record layout := Layout
  { lead : list byte;
    inner : list (list byte * list byte);
    last_word : list byte;
    trail : list byte }.

Definition wf_layout (y : layout) : Prop :=
  Forall trimmable (lead y)
  ∧ Forall (fun wg => is_word wg.1 ∧ is_gap wg.2) (inner y)
  ∧ is_word (last_word y)
  ∧ Forall trimmable (trail y).

Definition layout_body (y : layout) : list byte :=
  concat ((fun wg => wg.1 ++ wg.2) <$> inner y) ++ last_word y.

Definition layout_text (y : layout) : list byte :=
  lead y ++ layout_body y ++ trail y.

(** What trimming makes of it: the words, one space between neighbours. *)
Definition layout_trimmed (y : layout) : list byte :=
  concat ((fun wg : list byte * list byte => wg.1 ++ [x20]) <$> inner y)
  ++ last_word y.

(** Collapsing runs while scanning left to right; [prev] tells whether the
    byte before was trimmable. *)
Fixpoint collapse (prev : bool) (l : list byte) : list byte :=
  match l with
  | [] => []
  | c :: l' =>
      if IS_TRIMMABLE c then
        if prev then collapse true l' else x20 :: collapse true l'
      else c :: collapse false l'
  end.

(** The flag the scan ends with. *)
Fixpoint ends_trimmable (prev : bool) (l : list byte) : bool :=
  match l with
  | [] => prev
  | c :: l' => ends_trimmable (IS_TRIMMABLE c) l'
  end.

(** The layout of a trimmed buffer: the same words, every gap one space. *)
Definition layout_normal (y : layout) : layout :=
  {| lead := [];
     inner := (fun wg : list byte * list byte => (wg.1, [x20])) <$> inner y;
     last_word := last_word y;
     trail := [] |}.

(** ** Bytes and tables *)

Lemma index_of_char_lt c : index_of_char c < 256.
Proof. unfold index_of_char. pose proof (Byte.to_nat_bounded c). lia. Qed.

Lemma char_of_index_of_char c : char_of_index (index_of_char c) = c.
Proof.
  unfold char_of_index.
  rewrite Nat.mod_small by apply index_of_char_lt.
  unfold index_of_char. by rewrite Byte.of_to_nat.
Qed.

#[global] Instance index_of_char_inj : Inj (=) (=) index_of_char.
Proof.
  intros c d Hcd.
  rewrite <- (char_of_index_of_char c), <- (char_of_index_of_char d).
  by rewrite Hcd.
Qed.

Section tables.
Import detail.

Lemma prepare_identity_table_closed :
  prepare_identity_table = char_of_index <$> seq 0 256.
Proof. vm_compute. reflexivity. Qed.

Lemma prepare_identity_table_wf : wf_table prepare_identity_table.
Proof. vm_compute. reflexivity. Qed.

Lemma table_at_identity c : table_at prepare_identity_table c = c.
Proof.
  unfold table_at. rewrite prepare_identity_table_closed, list_lookup_fmap.
  rewrite lookup_seq_lt by apply index_of_char_lt. simpl.
  apply char_of_index_of_char.
Qed.

Lemma table_set_wf table c v : wf_table table → wf_table (table_set table c v).
Proof. unfold wf_table, table_set. by rewrite length_insert. Qed.

Lemma table_at_set table c v d :
  wf_table table →
  table_at (table_set table c v) d
  = if decide (c = d) then v else table_at table d.
Proof.
  intros Hwf. unfold table_at, table_set. case_decide as Hcd.
  - subst d. rewrite list_lookup_insert_eq; [done|].
    rewrite Hwf. apply index_of_char_lt.
  - rewrite list_lookup_insert_ne; [done|].
    intros Heq. by apply Hcd, (inj index_of_char).
Qed.

Lemma apply_rule_wf table rule : wf_table table → wf_table (apply_rule table rule).
Proof. destruct rule as [c [r|]]; simpl; apply table_set_wf. Qed.

Lemma foldl_apply_rule_wf order table :
  wf_table table → wf_table (foldl apply_rule table order).
Proof.
  revert table. induction order as [|rule order IH]; intros table Hwf; simpl.
  - done.
  - by apply IH, apply_rule_wf.
Qed.

(** A byte that no rule of [order] is keyed on keeps its cell. *)
Lemma foldl_apply_rule_other order table d :
  wf_table table → d ∉ order.*1 →
  table_at (foldl apply_rule table order) d = table_at table d.
Proof.
  revert table. induction order as [|[c a] order IH]; intros table Hwf Hd.
  - done.
  - simpl in *. apply not_elem_of_cons in Hd as [Hdc Hd].
    rewrite IH; [| by destruct a; apply table_set_wf | done].
    destruct a; rewrite table_at_set by done; by case_decide.
Qed.

(** With one rule per key, the cell of a key holds what its rule asks for,
    in whatever order the rules are visited. *)
Lemma foldl_apply_rule_key order table c a :
  wf_table table → NoDup order.*1 → (c, a) ∈ order →
  table_at (foldl apply_rule table order) c
  = default Constants.REMOVAL_SENTINEL a.
Proof.
  revert table.
  induction order as [|[c' a'] order IH]; intros table Hwf Hnd Hin.
  - by apply elem_of_nil in Hin.
  - simpl in *. apply NoDup_cons in Hnd as [Hfresh Hnd].
    apply elem_of_cons in Hin as [Heq|Hin].
    + injection Heq as <- <-.
      rewrite foldl_apply_rule_other; [| by destruct a; apply table_set_wf | done].
      destruct a; rewrite table_at_set by done; by case_decide.
    + apply IH; [by destruct a'; apply table_set_wf | done | done].
Qed.

Lemma foldl_apply_rule_map (rules : gmap byte (option byte)) order d :
  order ≡ₚ map_to_list rules →
  table_at (foldl apply_rule prepare_identity_table order) d
  = rule_target rules d.
Proof.
  intros Hperm. unfold rule_target.
  assert (Hnd : NoDup order.*1).
  { rewrite Hperm. apply NoDup_fst_map_to_list. }
  destruct (rules !! d) as [a|] eqn:Hd.
  - rewrite (foldl_apply_rule_key order _ d a).
    + by destruct a.
    + apply prepare_identity_table_wf.
    + done.
    + rewrite Hperm. by apply elem_of_map_to_list.
  - rewrite foldl_apply_rule_other.
    + apply table_at_identity.
    + apply prepare_identity_table_wf.
    + rewrite Hperm. intros Hin.
      apply list_elem_of_fmap in Hin as [[c a] [-> Hin]].
      apply elem_of_map_to_list in Hin. simpl in *. congruence.
Qed.

Lemma create_table_checked_empty :
  create_table_checked ∅ = (prepare_identity_table, true).
Proof. unfold create_table_checked. by rewrite decide_True. Qed.

Lemma create_table_checked_nonempty (rules : gmap byte (option byte)) :
  rules ≠ ∅ →
  create_table_checked rules
  = (foldl apply_rule prepare_identity_table (map_to_list rules), false).
Proof. intros Hne. unfold create_table_checked. by rewrite decide_False. Qed.

Lemma create_table_checked_wf (rules : gmap byte (option byte)) :
  wf_table (create_table_checked rules).1.
Proof.
  unfold create_table_checked. case_decide; simpl.
  - apply prepare_identity_table_wf.
  - apply foldl_apply_rule_wf, prepare_identity_table_wf.
Qed.

Lemma create_table_checked_at (rules : gmap byte (option byte)) d :
  table_at (create_table_checked rules).1 d = rule_target rules d.
Proof.
  unfold create_table_checked. case_decide as He; simpl.
  - subst rules. unfold rule_target. rewrite lookup_empty.
    apply table_at_identity.
  - by apply foldl_apply_rule_map.
Qed.

Lemma create_table_checked_flag (rules : gmap byte (option byte)) :
  (create_table_checked rules).2 = bool_decide (rules = ∅).
Proof.
  unfold create_table_checked. case_decide; simpl.
  - by rewrite bool_decide_eq_true_2.
  - by rewrite bool_decide_eq_false_2.
Qed.

End tables.

(** ** In-place compaction

    While a scan reads at [r] and has written [out] so far, with
    [length out ≤ r], the buffer is [out] followed by the untouched rest of the
    original content. *)

Section compaction.
Context {A : Type}.
Implicit Types (out text : list A).

Lemma compact_lookup out text r :
  length out ≤ r → (out ++ drop (length out) text) !! r = text !! r.
Proof.
  intros Hle. rewrite lookup_app_r by done. rewrite lookup_drop.
  f_equal. lia.
Qed.

Lemma compact_write out text x :
  length out < length text →
  <[length out := x]> (out ++ drop (length out) text)
  = (out ++ [x]) ++ drop (length (out ++ [x])) text.
Proof.
  intros Hlt.
  destruct (lookup_lt_is_Some_2 text (length out) Hlt) as [y Hy].
  rewrite (drop_S _ _ _ Hy).
  replace (length out) with (length out + 0) at 1 by lia.
  rewrite insert_app_r. simpl.
  rewrite length_app. simpl. rewrite Nat.add_1_r.
  by rewrite <- app_assoc.
Qed.

Lemma compact_finish out text (pad : A) :
  resize (length out) pad (out ++ drop (length out) text) = out.
Proof. by apply resize_app. Qed.

Lemma take_drop_cons text r k c :
  text !! r = Some c →
  take (S k) (drop r text) = c :: take k (drop (S r) text).
Proof. intros Hc. by rewrite (drop_S _ _ _ Hc). Qed.

End compaction.

(** ** The scan of [replace_and_remove] *)

Section scan.
Import detail.

Lemma mapped_and_kept_cons table c text :
  mapped_and_kept table (c :: text)
  = if decide (table_at table c ≠ Constants.REMOVAL_SENTINEL)
    then table_at table c :: mapped_and_kept table text
    else mapped_and_kept table text.
Proof.
  unfold mapped_and_kept. rewrite fmap_cons.
  case_decide as Hc.
  - by apply filter_cons_True.
  - apply filter_cons_False. intros Hne. by apply Hne.
Qed.

Lemma mapped_and_kept_app table l1 l2 :
  mapped_and_kept table (l1 ++ l2)
  = mapped_and_kept table l1 ++ mapped_and_kept table l2.
Proof. unfold mapped_and_kept. by rewrite fmap_app, filter_app. Qed.

Lemma mapped_and_kept_length table text :
  length (mapped_and_kept table text) ≤ length text.
Proof.
  unfold mapped_and_kept.
  etrans; [apply length_filter|]. by rewrite length_fmap.
Qed.

(** The loop invariant, from read position [r] for [k] more bytes. *)
Lemma rr_scan table text k : ∀ out r,
  length out ≤ r → r + k ≤ length text →
  foldl (rr_step table) (out ++ drop (length out) text, length out) (seq r k)
  = let out' := out ++ mapped_and_kept table (take k (drop r text)) in
    (out' ++ drop (length out') text, length out').
Proof.
  induction k as [|k IH]; intros out r Hout Hr.
  - simpl. rewrite take_0. unfold mapped_and_kept. simpl.
    by rewrite app_nil_r.
  - assert (Hlt : r < length text) by lia.
    destruct (lookup_lt_is_Some_2 text r Hlt) as [c Hc].
    rewrite (take_drop_cons _ _ _ _ Hc), mapped_and_kept_cons.
    cbn [seq foldl]. unfold rr_step at 2.
    rewrite compact_lookup, Hc by done.
    cbv zeta. case_decide as Hkeep.
    + rewrite compact_write by lia.
      replace (S (length out)) with (length (out ++ [table_at table c]))
        by (rewrite length_app; simpl; lia).
      rewrite IH; [| rewrite length_app; simpl; lia | lia].
      cbv zeta. by rewrite <- !app_assoc.
    + rewrite IH; [done | lia | lia].
Qed.

Lemma replace_and_remove_scan text table :
  replace_and_remove text table false = mapped_and_kept table text.
Proof.
  unfold replace_and_remove. rewrite orb_false_r.
  case_bool_decide as He.
  - by subst text.
  - pose proof (rr_scan table text (length text) [] 0) as Hscan.
    simpl in Hscan. rewrite drop_0 in Hscan.
    rewrite Hscan by lia. rewrite firstn_all.
    apply compact_finish.
Qed.

Lemma replace_and_remove_identity text table :
  replace_and_remove text table true = text.
Proof. unfold replace_and_remove. by rewrite orb_true_r. Qed.

End scan.

(** ** Pure replacement *)

Section replacement.
Import detail.

Lemma foldl_apply_replacement order table :
  foldl apply_replacement table order
  = foldl apply_rule table (prod_map id Some <$> order).
Proof.
  revert table. induction order as [|[c r] order IH]; intros table.
  - done.
  - simpl. apply IH.
Qed.

Lemma create_replacement_table_wf (replacements : gmap byte byte) :
  wf_table (create_replacement_table replacements).
Proof.
  unfold create_replacement_table. rewrite foldl_apply_replacement.
  apply foldl_apply_rule_wf, prepare_identity_table_wf.
Qed.

Lemma create_replacement_table_at (replacements : gmap byte byte) d :
  table_at (create_replacement_table replacements) d
  = replacement_target replacements d.
Proof.
  unfold create_replacement_table. rewrite foldl_apply_replacement.
  rewrite (foldl_apply_rule_map (Some <$> replacements)).
  - unfold rule_target, replacement_target. rewrite lookup_fmap.
    by destruct (replacements !! d).
  - by rewrite map_to_list_fmap.
Qed.

(** The loop invariant of [replace_chars]: positions before the cursor are
    rewritten, the others untouched. *)
Lemma rc_scan table k : ∀ done rest,
  k ≤ length rest →
  foldl (rc_step table) (done ++ rest) (seq (length done) k)
  = done ++ (table_at table <$> take k rest) ++ drop k rest.
Proof.
  induction k as [|k IH]; intros done rest Hk.
  - simpl. by rewrite drop_0.
  - destruct rest as [|c rest]; [simpl in Hk; lia|].
    cbn [seq foldl]. unfold rc_step at 2.
    rewrite list_lookup_middle by done.
    replace (length done) with (length done + 0) at 1 by lia.
    rewrite insert_app_r. simpl.
    replace (S (length done)) with (length (done ++ [table_at table c]))
      by (rewrite length_app; simpl; lia).
    rewrite (cons_middle _ done), app_assoc.
    rewrite IH by (simpl in Hk; lia).
    by rewrite <- app_assoc.
Qed.

Lemma replace_chars_map text table :
  replace_chars text table = table_at table <$> text.
Proof.
  unfold replace_chars. case_bool_decide as He.
  - by subst text.
  - pose proof (rc_scan table (length text) [] text) as Hscan.
    simpl in Hscan. rewrite Hscan by lia.
    by rewrite firstn_all, drop_all, app_nil_r.
Qed.

Lemma ascii_replace_once_map text (replacements : gmap byte byte) :
  ascii_replace_once text replacements
  = replacement_target replacements <$> text.
Proof.
  unfold ascii_replace_once. case_decide as He.
  - subst replacements. unfold replacement_target.
    induction text as [|c text IH]; [done|].
    rewrite fmap_cons, <- IH. by rewrite lookup_empty.
  - rewrite replace_chars_map. apply list_fmap_ext.
    intros i c _. apply create_replacement_table_at.
Qed.

Lemma ascii_char_replace_remove_once_unfold text
    (rules : gmap byte (option byte)) :
  ascii_char_replace_remove_once text rules
  = replace_and_remove text (create_table_checked rules).1
      (create_table_checked rules).2.
Proof.
  unfold ascii_char_replace_remove_once.
  by destruct (create_table_checked rules).
Qed.

Lemma mapped_and_kept_ext table1 table2 text :
  (∀ c, c ∈ text → table_at table1 c = table_at table2 c) →
  mapped_and_kept table1 text = mapped_and_kept table2 text.
Proof.
  intros Hext. unfold mapped_and_kept. f_equal.
  apply list_fmap_ext. intros i c Hc. apply Hext.
  by eapply list_elem_of_lookup_2.
Qed.

(** The one-shot transform with a non-empty rule set, as a filter-map. *)
Lemma ascii_char_replace_remove_once_scan text
    (rules : gmap byte (option byte)) :
  rules ≠ ∅ →
  ascii_char_replace_remove_once text rules
  = filter (fun m => m ≠ Constants.REMOVAL_SENTINEL)
           (rule_target rules <$> text).
Proof.
  intros Hne. rewrite ascii_char_replace_remove_once_unfold.
  rewrite create_table_checked_flag, bool_decide_eq_false_2 by done.
  rewrite replace_and_remove_scan. unfold mapped_and_kept. f_equal.
  apply list_fmap_ext. intros i c _. apply create_table_checked_at.
Qed.

Lemma ascii_char_replace_remove_once_empty_rules text :
  ascii_char_replace_remove_once text ∅ = text.
Proof.
  rewrite ascii_char_replace_remove_once_unfold, create_table_checked_empty.
  apply replace_and_remove_identity.
Qed.

End replacement.

(** ** Trimming: the cursors *)

Lemma IS_TRIMMABLE_set c : IS_TRIMMABLE c = bool_decide (c ∈ trimmable_set).
Proof. destruct c; vm_compute; reflexivity. Qed.

Lemma IS_TRIMMABLE_space : IS_TRIMMABLE x20 = true.
Proof. reflexivity. Qed.

Lemma find_first_lead lead : ∀ fuel pre rest,
  Forall trimmable lead →
  (rest = [] ∨ ∃ c rest', rest = c :: rest' ∧ IS_TRIMMABLE c = false) →
  length lead ≤ fuel →
  find_first fuel (pre ++ lead ++ rest) (length pre) = length pre + length lead.
Proof.
  induction lead as [|t lead IH]; intros fuel pre rest Hlead Hrest Hfuel.
  - simpl. rewrite Nat.add_0_r. destruct fuel as [|fuel]; [done|]. simpl.
    destruct Hrest as [->|(c & rest' & -> & Hc)].
    + rewrite app_nil_r, lookup_ge_None_2 by lia. done.
    + rewrite list_lookup_middle by done. rewrite Hc, andb_false_r. done.
  - apply Forall_cons in Hlead as [Ht Hlead].
    destruct fuel as [|fuel]; [simpl in Hfuel; lia|].
    cbn [find_first]. rewrite <- app_comm_cons, list_lookup_middle by done.
    rewrite Ht, bool_decide_eq_true_2
      by (rewrite length_app; simpl; lia).
    simpl andb. cbv iota.
    rewrite (cons_middle t pre), app_assoc.
    replace (S (length pre)) with (length (pre ++ [t]))
      by (rewrite length_app; simpl; lia).
    rewrite IH; [| done | done | simpl in Hfuel; lia].
    rewrite length_app. simpl. lia.
Qed.

Lemma find_last_trail trail : ∀ fuel pre body c junk,
  IS_TRIMMABLE c = false →
  Forall trimmable trail →
  length trail ≤ fuel →
  find_last fuel (pre ++ (body ++ [c]) ++ trail ++ junk) (length pre)
            (length (pre ++ (body ++ [c]) ++ trail))
  = length pre + length (body ++ [c]).
Proof.
  induction trail as [|t trail IH] using rev_ind;
    intros fuel pre body c junk Hc Htrail Hfuel.
  - rewrite app_nil_r. simpl app. rewrite <- length_app.
    destruct fuel as [|fuel]; [done|]. cbn [find_last].
    rewrite bool_decide_eq_true_2 by (rewrite !length_app; simpl; lia).
    replace (length (pre ++ body ++ [c]) - 1) with (length (pre ++ body))
      by (rewrite !length_app; simpl; lia).
    rewrite <- (app_assoc body [c] junk), (app_assoc pre body).
    change ([c] ++ junk) with (c :: junk).
    rewrite list_lookup_middle by done. by rewrite Hc.
  - apply Forall_app in Htrail as [Htrail Ht].
    apply Forall_cons in Ht as [Ht _]. unfold trimmable in Ht.
    rewrite length_app in Hfuel. simpl in Hfuel.
    destruct fuel as [|fuel]; [lia|]. cbn [find_last].
    rewrite bool_decide_eq_true_2 by (rewrite !length_app; simpl; lia).
    replace (length (pre ++ (body ++ [c]) ++ trail ++ [t]) - 1)
      with (length (pre ++ (body ++ [c]) ++ trail))
      by (rewrite !length_app; simpl; lia).
    replace (pre ++ (body ++ [c]) ++ (trail ++ [t]) ++ junk)
      with ((pre ++ (body ++ [c]) ++ trail) ++ t :: junk)
      by (by rewrite <- !app_assoc).
    rewrite list_lookup_middle by done. rewrite Ht.
    replace ((pre ++ (body ++ [c]) ++ trail) ++ t :: junk)
      with (pre ++ (body ++ [c]) ++ trail ++ t :: junk)
      by (by rewrite <- !app_assoc).
    apply IH; [done | done | lia].
Qed.

(** ** Trimming: the compacting scan *)

Lemma trim_scan text k : ∀ out prev r,
  length out ≤ r → r + k ≤ length text →
  foldl trim_step (TrimState (out ++ drop (length out) text) (length out) prev)
        (seq r k)
  = let mid := take k (drop r text) in
    let out' := out ++ collapse prev mid in
    TrimState (out' ++ drop (length out') text) (length out')
              (ends_trimmable prev mid).
Proof.
  induction k as [|k IH]; intros out prev r Hout Hr.
  - simpl. by rewrite app_nil_r.
  - assert (Hlt : r < length text) by lia.
    destruct (lookup_lt_is_Some_2 text r Hlt) as [c Hc].
    rewrite (take_drop_cons _ _ _ _ Hc).
    cbn [seq foldl collapse ends_trimmable]. unfold trim_step at 2.
    cbn [ts_text ts_write_ptr ts_previous_was_trimmable].
    rewrite compact_lookup, Hc by done.
    destruct (IS_TRIMMABLE c) eqn:Htrim; [destruct prev; simpl negb; cbv iota|].
    + rewrite IH; [done | lia | lia].
    + rewrite compact_write by lia.
      replace (S (length out)) with (length (out ++ [x20]))
        by (rewrite length_app; simpl; lia).
      rewrite IH; [| rewrite length_app; simpl; lia | lia].
      cbv zeta. by rewrite <- !app_assoc.
    + rewrite compact_write by lia.
      replace (S (length out)) with (length (out ++ [c]))
        by (rewrite length_app; simpl; lia).
      rewrite IH; [| rewrite length_app; simpl; lia | lia].
      cbv zeta. by rewrite <- !app_assoc.
Qed.

Lemma collapse_word w : ∀ prev l,
  Forall (fun c => IS_TRIMMABLE c = false) w → w ≠ [] →
  collapse prev (w ++ l) = w ++ collapse false l.
Proof.
  induction w as [|c w IH]; intros prev l Hw Hne; [done|].
  apply Forall_cons in Hw as [Hc Hw]. simpl. rewrite Hc. f_equal.
  destruct w as [|d w]; [done|]. by apply IH.
Qed.

Lemma collapse_gap_seen g l :
  Forall trimmable g → collapse true (g ++ l) = collapse true l.
Proof.
  induction g as [|t g IH]; intros Hg; [done|].
  apply Forall_cons in Hg as [Ht Hg]. simpl. rewrite Ht. by apply IH.
Qed.

Lemma collapse_gap g l :
  is_gap g → collapse false (g ++ l) = x20 :: collapse true l.
Proof.
  intros [Hne Hg]. destruct g as [|t g]; [done|].
  apply Forall_cons in Hg as [Ht Hg]. simpl. rewrite Ht. f_equal.
  by apply collapse_gap_seen.
Qed.

Lemma collapse_length l : ∀ prev, length (collapse prev l) ≤ length l.
Proof.
  induction l as [|c l IH]; intros prev; simpl; [done|].
  destruct (IS_TRIMMABLE c); [destruct prev|]; simpl;
    try (pose proof (IH true)); try (pose proof (IH false)); lia.
Qed.

(** ** Trimming: buffers by their layout *)

Lemma collapse_layout_body inner last_word prev :
  Forall (fun wg => is_word wg.1 ∧ is_gap wg.2) inner → is_word last_word →
  collapse prev (concat ((fun wg => wg.1 ++ wg.2) <$> inner) ++ last_word)
  = concat ((fun wg : list byte * list byte => wg.1 ++ [x20]) <$> inner)
    ++ last_word.
Proof.
  intros Hinner [Hne Hlast]. revert prev.
  induction Hinner as [|[w g] inner [[Hwne Hw] Hg] _ IH]; intros prev.
  - simpl. rewrite <- (app_nil_r last_word) at 1.
    rewrite collapse_word by done. simpl. by rewrite app_nil_r.
  - simpl in *. rewrite <- !app_assoc.
    rewrite collapse_word by done. rewrite collapse_gap by done.
    rewrite IH. done.
Qed.

Lemma layout_body_head y :
  wf_layout y →
  ∃ c rest, layout_body y = c :: rest ∧ IS_TRIMMABLE c = false.
Proof.
  intros (_ & Hinner & [Hne Hlast] & _). unfold layout_body.
  destruct (inner y) as [|[w g] inner'].
  - simpl. destruct (last_word y) as [|c rest]; [done|].
    apply Forall_cons in Hlast as [Hc _]. by exists c, rest.
  - apply Forall_cons in Hinner as [[[Hwne Hw] _] _]. simpl in *.
    destruct w as [|c w]; [done|].
    apply Forall_cons in Hw as [Hc _]. simpl. eauto.
Qed.

Lemma layout_body_last y :
  wf_layout y →
  ∃ body c, layout_body y = body ++ [c] ∧ IS_TRIMMABLE c = false.
Proof.
  intros (_ & _ & [Hne Hlast] & _). unfold layout_body.
  destruct (last_word y) as [|c w _] using rev_ind; [done|].
  apply Forall_app in Hlast as [_ Hc]. apply Forall_cons in Hc as [Hc _].
  exists (concat ((fun wg => wg.1 ++ wg.2) <$> inner y) ++ w), c.
  by rewrite app_assoc.
Qed.

Lemma trim_all_layout y :
  wf_layout y → trim_all (layout_text y) = layout_trimmed y.
Proof.
  intros Hwf.
  destruct (layout_body_head y Hwf) as (c & rest & Hhead & Hc).
  destruct (layout_body_last y Hwf) as (body & d & Hlast & Hd).
  destruct Hwf as (Hlead & Hinner & Hword & Htrail).
  assert (Hfirst :
    find_first (length (layout_text y)) (layout_text y) 0 = length (lead y)).
  { apply (find_first_lead (lead y) _ [] (layout_body y ++ trail y)).
    - done.
    - right. exists c, (rest ++ trail y). by rewrite Hhead.
    - unfold layout_text. rewrite length_app. lia. }
  assert (Hlen : length (layout_text y)
                 = length (lead y) + length (layout_body y) + length (trail y)).
  { unfold layout_text. rewrite !length_app. lia. }
  assert (Hblen : 0 < length (layout_body y)) by (rewrite Hhead; simpl; lia).
  assert (Hfind_last :
    find_last (length (layout_text y)) (layout_text y) (length (lead y))
              (length (layout_text y))
    = length (lead y) + length (layout_body y)).
  { pose proof (find_last_trail (trail y) (length (layout_text y)) (lead y)
                  body d [] Hd Htrail) as Hfl.
    rewrite app_nil_r, <- Hlast in Hfl. apply Hfl. lia. }
  unfold trim_all.
  rewrite bool_decide_eq_false_2
    by (intros He; rewrite He in Hlen; simpl in Hlen; lia).
  cbv zeta. rewrite Hfirst, bool_decide_eq_false_2 by lia.
  rewrite Hfind_last.
  replace (length (lead y) + length (layout_body y) - length (lead y))
    with (length (layout_body y)) by lia.
  pose proof (trim_scan (layout_text y) (length (layout_body y)) [] false
                (length (lead y))) as Hscan.
  simpl in Hscan. rewrite drop_0 in Hscan. rewrite Hscan by lia.
  cbn [ts_text ts_write_ptr].
  rewrite compact_finish. unfold layout_text.
  rewrite drop_app_length, take_app_length.
  by apply collapse_layout_body.
Qed.

Lemma trim_all_only_trimmable text :
  Forall trimmable text → trim_all text = [].
Proof.
  intros Htext. unfold trim_all. case_bool_decide as He; [done|].
  cbv zeta.
  pose proof (find_first_lead text (length text) [] [] Htext) as Hfirst.
  simpl in Hfirst. rewrite app_nil_r in Hfirst.
  rewrite Hfirst; [| by left | done].
  by rewrite bool_decide_eq_true_2.
Qed.

Lemma wf_layout_intro ld inn lw tr :
  Forall trimmable ld →
  Forall (fun wg => is_word wg.1 ∧ is_gap wg.2) inn →
  is_word lw → Forall trimmable tr →
  wf_layout (Layout ld inn lw tr).
Proof. intros Hld Hinn Hlw Htr. unfold wf_layout. simpl. done. Qed.

Lemma is_word_cons c w :
  IS_TRIMMABLE c = false → Forall (fun c => IS_TRIMMABLE c = false) w →
  is_word (c :: w).
Proof. intros Hc Hw. split; [done | by constructor]. Qed.

Lemma is_gap_cons t g : trimmable t → Forall trimmable g → is_gap (t :: g).
Proof. intros Ht Hg. split; [done | by constructor]. Qed.

Lemma layout_exists text :
  Forall trimmable text ∨ ∃ y, wf_layout y ∧ layout_text y = text.
Proof.
  induction text as [|c text IH]; [by left|].
  destruct (IS_TRIMMABLE c) eqn:Hc.
  - destruct IH as [Hall|(y & (Hlead & Hinner & Hword & Htrail) & <-)].
    + left. by constructor.
    + right. exists (Layout (c :: lead y) (inner y) (last_word y) (trail y)).
      split; [|done].
      apply wf_layout_intro; [by constructor | done | done | done].
  - right. destruct IH as [Hall|(y & (Hlead & Hinner & Hword & Htrail) & <-)].
    + exists (Layout [] [] [c] text). split; [|done].
      apply wf_layout_intro;
        [by constructor | by constructor | by apply is_word_cons | done].
    + destruct y as [[|t ld] inn lw tr]; simpl in *.
      * destruct inn as [|[w g] inn].
        -- exists (Layout [] [] (c :: lw) tr). split; [|done].
           apply wf_layout_intro; [done | done | | done].
           apply is_word_cons; [done | by destruct Hword].
        -- exists (Layout [] ((c :: w, g) :: inn) lw tr). split; [|done].
           apply Forall_cons in Hinner as [[[_ Hw] Hg] Hinner].
           apply wf_layout_intro; [done | | done | done].
           constructor; [|done]. split; [by apply is_word_cons | done].
      * exists (Layout [] (([c], t :: ld) :: inn) lw tr). split.
        -- apply Forall_cons in Hlead as [Ht Hld].
           apply wf_layout_intro; [by constructor | | done | done].
           constructor; [|done].
           split; [by apply is_word_cons | by apply is_gap_cons].
        -- unfold layout_text, layout_body. simpl.
           by rewrite <- !app_assoc.
Qed.

Lemma layout_normal_wf y : wf_layout y → wf_layout (layout_normal y).
Proof.
  intros (_ & Hinner & Hword & _).
  apply wf_layout_intro; [by constructor | | done | by constructor].
  apply Forall_fmap. eapply Forall_impl; [exact Hinner|].
  intros [w g] [Hw _]. split; [done|]. by apply is_gap_cons.
Qed.

Lemma layout_normal_text y : layout_text (layout_normal y) = layout_trimmed y.
Proof.
  unfold layout_text, layout_body, layout_trimmed. simpl.
  rewrite app_nil_r. f_equal. f_equal.
  rewrite <- list_fmap_compose. done.
Qed.

Lemma layout_normal_trimmed y :
  layout_trimmed (layout_normal y) = layout_trimmed y.
Proof.
  unfold layout_trimmed. simpl. f_equal. f_equal.
  rewrite <- list_fmap_compose. done.
Qed.

Lemma layout_trimmed_length y :
  wf_layout y → length (layout_trimmed y) ≤ length (layout_text y).
Proof.
  intros (_ & Hinner & _ & _).
  unfold layout_trimmed, layout_text, layout_body. rewrite !length_app.
  assert (length (concat ((fun wg : list byte * list byte =>
                             wg.1 ++ [x20]) <$> inner y))
          ≤ length (concat ((fun wg => wg.1 ++ wg.2) <$> inner y))); [|lia].
  induction Hinner as [|[w g] inn [_ [Hne _]] _ IH]; [done|].
  rewrite !fmap_cons. cbn [concat fst snd] in *. rewrite !length_app.
  destruct g; [done|]. simpl. lia.
Qed.

Lemma trim_all_idem text : trim_all (trim_all text) = trim_all text.
Proof.
  destruct (layout_exists text) as [Hall|(y & Hwf & <-)].
  - by rewrite (trim_all_only_trimmable text).
  - rewrite (trim_all_layout y) by done.
    rewrite <- layout_normal_text, trim_all_layout by by apply layout_normal_wf.
    by rewrite layout_normal_trimmed, layout_normal_text.
Qed.

Lemma trim_all_length text : length (trim_all text) ≤ length text.
Proof.
  destruct (layout_exists text) as [Hall|(y & Hwf & <-)].
  - rewrite trim_all_only_trimmable by done. simpl. lia.
  - rewrite trim_all_layout by done. by apply layout_trimmed_length.
Qed.

(** ** Tables are determined by their cells *)

Lemma index_of_char_of_index i : i < 256 → index_of_char (char_of_index i) = i.
Proof.
  intros Hi. unfold char_of_index, index_of_char.
  rewrite Nat.mod_small by done.
  destruct (Byte.of_nat i) as [b|] eqn:Hb.
  - simpl. by apply Byte.to_of_nat.
  - apply Byte.of_nat_None_iff in Hb. lia.
Qed.

Lemma table_ext (table1 table2 : list byte) :
  wf_table table1 → wf_table table2 →
  (∀ c, detail.table_at table1 c = detail.table_at table2 c) →
  table1 = table2.
Proof.
  unfold wf_table, table_size. intros Hwf1 Hwf2 Hext. apply list_eq. intros i.
  destruct (decide (i < 256)) as [Hi|Hi].
  - specialize (Hext (char_of_index i)). unfold detail.table_at in Hext.
    rewrite index_of_char_of_index in Hext by done.
    destruct (lookup_lt_is_Some_2 table1 i) as [x Hx]; [lia|].
    destruct (lookup_lt_is_Some_2 table2 i) as [z Hz]; [lia|].
    rewrite Hx, Hz in *. simpl in Hext. by subst.
  - rewrite !lookup_ge_None_2 by lia. done.
Qed.

(** The table does not depend on the order in which the rules are visited. *)
Lemma create_table_checked_any_order (rules : gmap byte (option byte)) order :
  order ≡ₚ map_to_list rules →
  foldl detail.apply_rule detail.prepare_identity_table order
  = foldl detail.apply_rule detail.prepare_identity_table (map_to_list rules).
Proof.
  intros Hperm. apply table_ext.
  - apply foldl_apply_rule_wf, prepare_identity_table_wf.
  - apply foldl_apply_rule_wf, prepare_identity_table_wf.
  - intros c. by rewrite !(foldl_apply_rule_map rules).
Qed.

(** ** Auxiliary facts on filters *)

Lemma kept_length (f : byte → byte) (text : list byte) :
  length (filter (fun m => m ≠ Constants.REMOVAL_SENTINEL) (f <$> text))
  = length (filter (fun b => f b ≠ Constants.REMOVAL_SENTINEL) text).
Proof.
  induction text as [|c text IH]; [done|].
  rewrite fmap_cons.
  destruct (decide (f c = Constants.REMOVAL_SENTINEL)) as [Hc|Hc].
  - rewrite (filter_cons_False _ (f c)) by (intros Hne; by apply Hne).
    rewrite (filter_cons_False _ c) by (intros Hne; by apply Hne).
    done.
  - rewrite (filter_cons_True _ (f c)) by done.
    rewrite (filter_cons_True _ c) by done.
    simpl. by rewrite IH.
Qed.

(** Bytes whose mapped value is the sentinel may as well be absent. *)
Lemma kept_skip (f : byte → byte) (b : byte) (text : list byte) :
  f b = Constants.REMOVAL_SENTINEL →
  filter (fun m => m ≠ Constants.REMOVAL_SENTINEL)
         (f <$> filter (fun c => c ≠ b) text)
  = filter (fun m => m ≠ Constants.REMOVAL_SENTINEL) (f <$> text).
Proof.
  intros Hb. induction text as [|c text IH]; [done|].
  destruct (decide (c = b)) as [->|Hcb].
  - rewrite (filter_cons_False _ b text) by (intros Hne; by apply Hne).
    rewrite fmap_cons.
    rewrite (filter_cons_False _ (f b)) by (intros Hne; by apply Hne).
    done.
  - rewrite (filter_cons_True _ c text) by done. rewrite !fmap_cons.
    destruct (decide (f c = Constants.REMOVAL_SENTINEL)) as [Hc|Hc].
    + rewrite !(filter_cons_False _ (f c)) by (intros Hne; by apply Hne).
      done.
    + rewrite !(filter_cons_True _ (f c)) by done. by rewrite IH.
Qed.

Lemma sentinel_not_kept (l : list byte) :
  Constants.REMOVAL_SENTINEL
  ∉ filter (fun m => m ≠ Constants.REMOVAL_SENTINEL) l.
Proof. intros Hin. apply list_elem_of_filter in Hin as [Hne _]. by apply Hne. Qed.

Lemma editor_apply_once (rules : gmap byte (option byte)) text :
  ReusableASCIICharEditor.apply (ReusableASCIICharEditor.make rules) text
  = ascii_char_replace_remove_once text rules.
Proof. by rewrite ascii_char_replace_remove_once_unfold. Qed.

Lemma replacer_apply_once (replacements : gmap byte byte) text :
  ReusableCharReplacer.apply (ReusableCharReplacer.make replacements) text
  = ascii_replace_once text replacements.
Proof.
  unfold ReusableCharReplacer.apply, ReusableCharReplacer.make,
    ascii_replace_once. simpl.
  case_bool_decide; case_decide; done.
Qed.

Lemma ascii_char_replace_remove_once_length text
    (rules : gmap byte (option byte)) :
  length (ascii_char_replace_remove_once text rules) ≤ length text.
Proof.
  destruct (decide (rules = ∅)) as [->|Hne].
  - by rewrite ascii_char_replace_remove_once_empty_rules.
  - rewrite ascii_char_replace_remove_once_scan by done.
    etrans; [apply length_filter|]. by rewrite length_fmap.
Qed.

Lemma rule_target_insert_removal (rules : gmap byte (option byte)) b c :
  rules !! b = Some (Some Constants.REMOVAL_SENTINEL) →
  rule_target (<[b := None]> rules) c = rule_target rules c.
Proof.
  intros Hb. unfold rule_target. destruct (decide (b = c)) as [<-|Hbc].
  - by rewrite lookup_insert_eq, Hb.
  - by rewrite lookup_insert_ne.
Qed.
(** ** Concrete scenarios *)

Definition bytes_of (s : string) : list byte := String.list_byte_of_string s.

Example scenario_1 :
  ascii_char_replace_remove_once (bytes_of "hello world") ∅
  = bytes_of "hello world".
Proof. vm_compute. reflexivity. Qed.

Example scenario_2 :
  ascii_char_replace_remove_once (bytes_of "a-b-c") {[ "-"%byte := None ]}
  = bytes_of "abc".
Proof. vm_compute. reflexivity. Qed.

Example scenario_3 :
  ascii_char_replace_remove_once (bytes_of "a1b2c3")
    (<[ "1"%byte := None ]> {[ "2"%byte := Some "!"%byte ]})
  = bytes_of "ab!c3".
Proof. vm_compute. reflexivity. Qed.

Example scenario_4 :
  trim_all ([x20; x20; x09; x20] ++ bytes_of "hello" ++ [x20; x0a; x20]
            ++ bytes_of "world" ++ [x20; x20])
  = bytes_of "hello world".
Proof. vm_compute. reflexivity. Qed.

Example scenario_5 : trim_all [x09; x09; x09] = [].
Proof. vm_compute. reflexivity. Qed.

Example scenario_6 :
  ascii_replace_once (bytes_of "abc")
    (<[ "a"%byte := "A"%byte ]> {[ "b"%byte := "B"%byte ]})
  = bytes_of "ABc".
Proof. vm_compute. reflexivity. Qed.

(** ** The properties *)

(** C1. Scan-and-compact correctness: with [is_identity = false], for every
    buffer and every table, [replace_and_remove] leaves the buffer equal to the
    mapped bytes [table[b]] of the original bytes, in order, without those
    equal to the sentinel 0x00; the length is the number of bytes kept. *)
Theorem replace_and_remove_filter_map (text table : list byte) :
  detail.replace_and_remove text table false
  = filter (fun m => m ≠ Constants.REMOVAL_SENTINEL)
           (detail.table_at table <$> text)
  ∧ length (detail.replace_and_remove text table false)
    = length (filter (fun b => detail.table_at table b
                               ≠ Constants.REMOVAL_SENTINEL) text).
Proof.
  rewrite replace_and_remove_scan. unfold mapped_and_kept.
  split; [done|].
  apply kept_length.
Qed.

(** C2. Table builder: an empty rule set gives the identity table (every byte
    maps to itself) and [isIdentity = true]; a non-empty one gives
    [isIdentity = false] and the table built from the identity table, in any
    visiting order of the rules, whose cell for a byte holds the replacement
    of its rule, 0x00 for a removal rule, and the byte itself when no rule is
    keyed on it. *)
Theorem create_table_checked_spec :
  detail.create_table_checked ∅ = (detail.prepare_identity_table, true)
  ∧ (∀ b, detail.table_at detail.prepare_identity_table b = b)
  ∧ ∀ rules : gmap byte (option byte), rules ≠ ∅ →
      (detail.create_table_checked rules).2 = false
      ∧ wf_table (detail.create_table_checked rules).1
      ∧ (∀ order, order ≡ₚ map_to_list rules →
           (detail.create_table_checked rules).1
           = foldl detail.apply_rule detail.prepare_identity_table order)
      ∧ ∀ b, detail.table_at (detail.create_table_checked rules).1 b
             = match rules !! b with
               | Some (Some replacement) => replacement
               | Some None => x00
               | None => b
               end.
Proof.
  split; [apply create_table_checked_empty|].
  split; [apply table_at_identity|].
  intros rules Hne. split_and!.
  - by rewrite create_table_checked_flag, bool_decide_eq_false_2.
  - apply create_table_checked_wf.
  - intros order Hperm. rewrite create_table_checked_nonempty by done. simpl.
    symmetry. by apply create_table_checked_any_order.
  - intros b. apply create_table_checked_at.
Qed.

(** C3. Trim contract: the trimmable bytes are space, tab, newline, carriage
    return, form feed, vertical tab and backtick 0x60; a buffer of trimmable
    bytes only becomes empty; any other buffer is, in exactly the way
    [layout_text] spells out, leading trimmable bytes, words separated by
    non-empty runs of trimmable bytes, and trailing trimmable bytes, and
    [trim_all] leaves the words, unchanged and in order, with one space 0x20
    in place of each run between two words. *)
Theorem trim_all_contract :
  (∀ c, IS_TRIMMABLE c = true ↔ c ∈ [x20; x09; x0a; x0d; x0c; x0b; x60])
  ∧ (∀ text, Forall trimmable text → trim_all text = [])
  ∧ (∀ y, wf_layout y → trim_all (layout_text y) = layout_trimmed y)
  ∧ (∀ text, Forall trimmable text ∨ ∃ y, wf_layout y ∧ layout_text y = text).
Proof.
  split_and!.
  - intros c. rewrite IS_TRIMMABLE_set. apply bool_decide_eq_true.
  - apply trim_all_only_trimmable.
  - apply trim_all_layout.
  - apply layout_exists.
Qed.

(** C4. Sentinel ambiguity: when a rule replaces byte [b] by 0x00, the
    replace-or-remove transform drops every occurrence of [b]: the result is
    the one for the buffer without its [b]s, the one for the rule set with [b]
    marked for removal, and holds no 0x00; [ReusableASCIICharEditor::apply]
    gives the same buffer. *)
Theorem sentinel_replacement_drops (rules : gmap byte (option byte))
    (b : byte) (text : list byte) :
  rules !! b = Some (Some x00) →
  ascii_char_replace_remove_once text rules
  = ascii_char_replace_remove_once (filter (fun c => c ≠ b) text) rules
  ∧ ascii_char_replace_remove_once text rules
    = ascii_char_replace_remove_once text (<[b := None]> rules)
  ∧ (x00 ∉ ascii_char_replace_remove_once text rules)
  ∧ ReusableASCIICharEditor.apply (ReusableASCIICharEditor.make rules) text
    = ascii_char_replace_remove_once text rules.
Proof.
  intros Hb.
  assert (Hne : rules ≠ ∅) by (intros ->; by rewrite lookup_empty in Hb).
  split_and!.
  - rewrite !ascii_char_replace_remove_once_scan by done.
    symmetry. apply kept_skip. unfold rule_target. by rewrite Hb.
  - rewrite !ascii_char_replace_remove_once_scan
      by first [done | apply insert_non_empty].
    f_equal. apply list_fmap_ext. intros i c _.
    symmetry. by apply rule_target_insert_removal.
  - rewrite ascii_char_replace_remove_once_scan by done.
    apply sentinel_not_kept.
  - apply editor_apply_once.
Qed.

(** C5. Implicit NUL removal: with a non-empty rule set that has no rule keyed
    on 0x00, the cell of 0x00 is still 0x00, the sentinel, and the
    replace-or-remove transform removes every 0x00 of the input: the result
    is the one for the buffer without its 0x00 bytes and holds no 0x00. *)
Theorem implicit_nul_removal (rules : gmap byte (option byte))
    (text : list byte) :
  rules ≠ ∅ → rules !! x00 = None →
  detail.table_at (detail.create_table_checked rules).1 x00
  = Constants.REMOVAL_SENTINEL
  ∧ ascii_char_replace_remove_once text rules
    = ascii_char_replace_remove_once (filter (fun c => c ≠ x00) text) rules
  ∧ (x00 ∉ ascii_char_replace_remove_once text rules).
Proof.
  intros Hne Hnul.
  assert (Htarget : rule_target rules x00 = Constants.REMOVAL_SENTINEL).
  { unfold rule_target. by rewrite Hnul. }
  split_and!.
  - by rewrite create_table_checked_at.
  - rewrite !ascii_char_replace_remove_once_scan by done.
    symmetry. by apply kept_skip.
  - rewrite ascii_char_replace_remove_once_scan by done.
    apply sentinel_not_kept.
Qed.

(** C6. Idempotence of trim: [trim_all (trim_all x) = trim_all x] for every
    buffer. *)
Theorem trim_all_idempotent (text : list byte) :
  trim_all (trim_all text) = trim_all text.
Proof. apply trim_all_idem. Qed.

(** C7. Length invariant: the replace-or-remove transforms and the trim never
    lengthen the buffer; the pure-replacement transforms keep its length. *)
Theorem length_invariant (text table : list byte) (is_identity : bool)
    (rules : gmap byte (option byte)) (replacements : gmap byte byte) :
  length (detail.replace_and_remove text table is_identity) ≤ length text
  ∧ length (ascii_char_replace_remove_once text rules) ≤ length text
  ∧ length (ReusableASCIICharEditor.apply
              (ReusableASCIICharEditor.make rules) text) ≤ length text
  ∧ length (trim_all text) ≤ length text
  ∧ length (detail.replace_chars text table) = length text
  ∧ length (ascii_replace_once text replacements) = length text
  ∧ length (ReusableCharReplacer.apply
              (ReusableCharReplacer.make replacements) text) = length text.
Proof.
  split_and!.
  - destruct is_identity.
    + by rewrite replace_and_remove_identity.
    + rewrite replace_and_remove_scan. apply mapped_and_kept_length.
  - apply ascii_char_replace_remove_once_length.
  - rewrite editor_apply_once. apply ascii_char_replace_remove_once_length.
  - apply trim_all_length.
  - by rewrite replace_chars_map, length_fmap.
  - by rewrite ascii_replace_once_map, length_fmap.
  - by rewrite replacer_apply_once, ascii_replace_once_map, length_fmap.
Qed.

(** C8. Pure-replacement positional fidelity: the table is the identity
    overwritten by the entries of the map; the output byte at every position
    [i] is [table[input[i]]], so nothing moves; a byte mapped to 0x00 is
    written as 0x00 and stays in the buffer. *)
Theorem replace_positional (text : list byte) (replacements : gmap byte byte) :
  (∀ c, detail.table_at (detail.create_replacement_table replacements) c
        = default c (replacements !! c))
  ∧ (∀ i, ascii_replace_once text replacements !! i
          = detail.table_at (detail.create_replacement_table replacements)
              <$> text !! i)
  ∧ (∀ i, detail.replace_chars text
            (detail.create_replacement_table replacements) !! i
          = detail.table_at (detail.create_replacement_table replacements)
              <$> text !! i)
  ∧ (∀ c i, replacements !! c = Some x00 → text !! i = Some c →
            ascii_replace_once text replacements !! i = Some x00).
Proof.
  split_and!.
  - intros c. apply create_replacement_table_at.
  - intros i. rewrite ascii_replace_once_map, list_lookup_fmap.
    destruct (text !! i) as [c|]; [|done]. simpl.
    by rewrite create_replacement_table_at.
  - intros i. by rewrite replace_chars_map, list_lookup_fmap.
  - intros c i Hc Hi. rewrite ascii_replace_once_map, list_lookup_fmap, Hi.
    simpl. unfold replacement_target. by rewrite Hc.
Qed.

(** C9. Identity and empty fast paths: an empty rule map or an empty
    replacement map leaves every buffer as it is, and every transform leaves
    the empty buffer empty. *)
Theorem fast_paths (text table : list byte) (is_identity : bool)
    (rules : gmap byte (option byte)) (replacements : gmap byte byte) :
  ascii_char_replace_remove_once text ∅ = text
  ∧ ReusableASCIICharEditor.apply (ReusableASCIICharEditor.make ∅) text = text
  ∧ detail.replace_and_remove text table true = text
  ∧ ascii_replace_once text ∅ = text
  ∧ ReusableCharReplacer.apply (ReusableCharReplacer.make ∅) text = text
  ∧ ascii_char_replace_remove_once [] rules = []
  ∧ ReusableASCIICharEditor.apply (ReusableASCIICharEditor.make rules) [] = []
  ∧ detail.replace_and_remove [] table is_identity = []
  ∧ ascii_replace_once [] replacements = []
  ∧ ReusableCharReplacer.apply (ReusableCharReplacer.make replacements) [] = []
  ∧ detail.replace_chars [] table = []
  ∧ trim_all [] = [].
Proof.
  assert (Hempty : ascii_char_replace_remove_once [] rules = []).
  { by rewrite ascii_char_replace_remove_once_unfold. }
  assert (Hnil : ascii_replace_once [] replacements = []).
  { by rewrite ascii_replace_once_map. }
  assert (Hnone : ascii_replace_once text ∅ = text).
  { unfold ascii_replace_once. by rewrite decide_True. }
  split_and!.
  - apply ascii_char_replace_remove_once_empty_rules.
  - rewrite editor_apply_once. apply ascii_char_replace_remove_once_empty_rules.
  - apply replace_and_remove_identity.
  - exact Hnone.
  - by rewrite replacer_apply_once.
  - exact Hempty.
  - by rewrite editor_apply_once.
  - by destruct is_identity.
  - exact Hnil.
  - by rewrite replacer_apply_once.
  - reflexivity.
  - reflexivity.
Qed.

(** C10. The reusable wrappers agree with the one-shot functions: built from
    the same map, [apply] (and [operator()]) gives the buffer the one-shot
    function gives, on one buffer, on any sequence of buffers, and when
    applied any number of times to the same buffer. *)
Theorem wrappers_agree (rules : gmap byte (option byte))
    (replacements : gmap byte byte) :
  let editor := ReusableASCIICharEditor.make rules in
  let replacer := ReusableCharReplacer.make replacements in
  (∀ text, ReusableASCIICharEditor.apply editor text
           = ascii_char_replace_remove_once text rules)
  ∧ (∀ text, ReusableASCIICharEditor.call editor text
             = ascii_char_replace_remove_once text rules)
  ∧ (∀ text, ReusableCharReplacer.apply replacer text
             = ascii_replace_once text replacements)
  ∧ (∀ text, ReusableCharReplacer.call replacer text
             = ascii_replace_once text replacements)
  ∧ (∀ texts : list (list byte),
       ReusableASCIICharEditor.apply editor <$> texts
       = (fun text => ascii_char_replace_remove_once text rules) <$> texts)
  ∧ (∀ texts : list (list byte),
       ReusableCharReplacer.apply replacer <$> texts
       = (fun text => ascii_replace_once text replacements) <$> texts)
  ∧ (∀ n text,
       Nat.iter n (ReusableASCIICharEditor.apply editor) text
       = Nat.iter n (fun text => ascii_char_replace_remove_once text rules)
                  text)
  ∧ (∀ n text,
       Nat.iter n (ReusableCharReplacer.apply replacer) text
       = Nat.iter n (fun text => ascii_replace_once text replacements) text).
Proof.
  intros editor replacer. split_and!.
  - apply editor_apply_once.
  - apply editor_apply_once.
  - apply replacer_apply_once.
  - apply replacer_apply_once.
  - intros texts. apply list_fmap_ext. intros _ text _.
    apply editor_apply_once.
  - intros texts. apply list_fmap_ext. intros _ text _.
    apply replacer_apply_once.
  - intros n text. induction n as [|n IH]; [done|]. simpl.
    rewrite IH. apply editor_apply_once.
  - intros n text. induction n as [|n IH]; [done|]. simpl.
    rewrite IH. apply replacer_apply_once.
Qed.

(** ** The conditional properties at concrete inputs *)

(** The rule set [{'-': remove}]: not empty, flag false, cell of ['-'] 0x00,
    cell of ['a'] unchanged. *)
Lemma create_table_checked_spec_witness :
  ({[ x2d := None ]} : gmap byte (option byte)) ≠ ∅
  ∧ map_to_list ({[ x2d := None ]} : gmap byte (option byte))
    ≡ₚ map_to_list ({[ x2d := None ]} : gmap byte (option byte))
  ∧ (detail.create_table_checked {[ x2d := None ]}).2 = false
  ∧ (detail.create_table_checked {[ x2d := None ]}).1
    = foldl detail.apply_rule detail.prepare_identity_table
            (map_to_list ({[ x2d := None ]} : gmap byte (option byte)))
  ∧ detail.table_at (detail.create_table_checked {[ x2d := None ]}).1 x2d = x00
  ∧ detail.table_at (detail.create_table_checked {[ x2d := None ]}).1 x61 = x61.
Proof.
  assert (Hne : ({[ x2d := None ]} : gmap byte (option byte)) ≠ ∅).
  { apply (bool_decide_eq_false_1 _). vm_compute. reflexivity. }
  assert (Hperm : map_to_list ({[ x2d := None ]} : gmap byte (option byte))
                  ≡ₚ map_to_list ({[ x2d := None ]} : gmap byte (option byte))).
  { reflexivity. }
  destruct (proj2 (proj2 create_table_checked_spec) _ Hne)
    as (Hflag & _ & Horder & Hat).
  split; [exact Hne|]. split; [exact Hperm|]. split; [exact Hflag|].
  split; [exact (Horder _ Hperm)|].
  split; [exact (Hat x2d) | exact (Hat x61)].
Defined.

(** ["  \t a \t\n b `"] holds the words ["a"] and ["b"]; ["\t\t"] holds none. *)
Lemma trim_all_contract_witness :
  wf_layout (Layout [x20; x09] [([x61], [x09; x0a])] [x62] [x60])
  ∧ trim_all (layout_text
                (Layout [x20; x09] [([x61], [x09; x0a])] [x62] [x60]))
    = [x61; x20; x62]
  ∧ Forall trimmable [x09; x09]
  ∧ trim_all [x09; x09] = [].
Proof.
  assert (Hwf : wf_layout (Layout [x20; x09] [([x61], [x09; x0a])] [x62] [x60])).
  { unfold wf_layout, is_word, is_gap, trimmable. simpl.
    repeat (constructor || discriminate). }
  assert (Hall : Forall trimmable [x09; x09]).
  { unfold trimmable. repeat constructor. }
  destruct trim_all_contract as (_ & Honly & Hlayout & _).
  split; [exact Hwf|]. split; [exact (Hlayout _ Hwf)|].
  split; [exact Hall | exact (Honly _ Hall)].
Defined.

(** ["banana"] under [{'a': replace-with 0x00}]. *)
Lemma sentinel_replacement_drops_witness :
  ({[ x61 := Some x00 ]} : gmap byte (option byte)) !! x61 = Some (Some x00)
  ∧ ascii_char_replace_remove_once (bytes_of "banana") {[ x61 := Some x00 ]}
    = ascii_char_replace_remove_once
        (filter (fun c => c ≠ x61) (bytes_of "banana")) {[ x61 := Some x00 ]}
  ∧ x00 ∉ ascii_char_replace_remove_once (bytes_of "banana")
            {[ x61 := Some x00 ]}.
Proof.
  assert (Hb : ({[ x61 := Some x00 ]} : gmap byte (option byte)) !! x61
               = Some (Some x00)).
  { vm_compute. reflexivity. }
  destruct (sentinel_replacement_drops _ x61 (bytes_of "banana") Hb)
    as (Hskip & _ & Hnul & _).
  split; [exact Hb|]. split; [exact Hskip | exact Hnul].
Defined.

(** [a 0x00 - b] under [{'-': remove}]. *)
Lemma implicit_nul_removal_witness :
  ({[ x2d := None ]} : gmap byte (option byte)) ≠ ∅
  ∧ ({[ x2d := None ]} : gmap byte (option byte)) !! x00 = None
  ∧ ascii_char_replace_remove_once [x61; x00; x2d; x62] {[ x2d := None ]}
    = ascii_char_replace_remove_once
        (filter (fun c => c ≠ x00) [x61; x00; x2d; x62]) {[ x2d := None ]}
  ∧ x00 ∉ ascii_char_replace_remove_once [x61; x00; x2d; x62]
            {[ x2d := None ]}.
Proof.
  assert (Hne : ({[ x2d := None ]} : gmap byte (option byte)) ≠ ∅).
  { apply (bool_decide_eq_false_1 _). vm_compute. reflexivity. }
  assert (Hnul : ({[ x2d := None ]} : gmap byte (option byte)) !! x00 = None).
  { vm_compute. reflexivity. }
  destruct (implicit_nul_removal _ [x61; x00; x2d; x62] Hne Hnul)
    as (_ & Hskip & Hout).
  split; [exact Hne|]. split; [exact Hnul|].
  split; [exact Hskip | exact Hout].
Defined.

(** ["aba"] under [{'a': 0x00}]: position 2 holds 0x00 afterwards. *)
Lemma replace_positional_witness :
  ({[ x61 := x00 ]} : gmap byte byte) !! x61 = Some x00
  ∧ [x61; x62; x61] !! 2 = Some x61
  ∧ ascii_replace_once [x61; x62; x61] {[ x61 := x00 ]} !! 2 = Some x00.
Proof.
  assert (Hc : ({[ x61 := x00 ]} : gmap byte byte) !! x61 = Some x00).
  { vm_compute. reflexivity. }
  assert (Hi : [x61; x62; x61] !! 2 = Some x61) by reflexivity.
  destruct (replace_positional [x61; x62; x61] {[ x61 := x00 ]})
    as (_ & _ & _ & Hzero).
  split; [exact Hc|]. split; [exact Hi | exact (Hzero x61 2 Hc Hi)].
Defined.


(** ** Further properties: the scans stay inside the buffer *)

Lemma compact_shape {A} (out text : list A) n :
  length out ≤ n → n ≤ length text →
  length (out ++ drop (length out) text) = length text
  ∧ drop n (out ++ drop (length out) text) = drop n text.
Proof.
  intros Hout Hn. split.
  - rewrite length_app, length_drop. lia.
  - rewrite drop_app_ge by done. rewrite drop_drop. f_equal. lia.
Qed.

(** X1. After any number [k] of iterations of the scan of
    [replace_and_remove], the write cursor is not ahead of the read cursor,
    the buffer has its original length, the bytes from the read cursor on are
    the original ones, and the bytes before the write cursor are the kept
    mapped bytes of the [k] bytes read. *)
Theorem rr_scan_invariant (table text : list byte) (k : nat) :
  k ≤ length text →
  let st := foldl (detail.rr_step table) (text, 0) (seq 0 k) in
  st.2 ≤ k
  ∧ length st.1 = length text
  ∧ drop k st.1 = drop k text
  ∧ take st.2 st.1
    = filter (fun m => m ≠ Constants.REMOVAL_SENTINEL)
             (detail.table_at table <$> take k text).
Proof.
  intros Hk.
  pose proof (rr_scan table text k [] 0) as Hscan.
  simpl in Hscan. rewrite drop_0 in Hscan. rewrite Hscan by lia.
  fold (mapped_and_kept table (take k text)).
  assert (Hlen : length (mapped_and_kept table (take k text)) ≤ k).
  { etrans; [apply mapped_and_kept_length|]. by rewrite length_take_le. }
  destruct (compact_shape (mapped_and_kept table (take k text)) text k)
    as [Hsame Hrest]; [done | done |].
  cbn [fst snd]. split_and!; [done | done | done |].
  apply take_app_length.
Qed.

(** X2. The compacting loop of [trim_all], started at any read position [r]
    and run for [k] bytes inside the buffer: the write cursor has advanced at
    most [k], the buffer has its original length, the bytes from the read
    cursor on are the original ones, and the bytes before the write cursor are
    the collapsed form of the bytes read. *)
Theorem trim_scan_invariant (text : list byte) (r k : nat) :
  r + k ≤ length text →
  let st := foldl trim_step (TrimState text 0 false) (seq r k) in
  ts_write_ptr st ≤ k
  ∧ length (ts_text st) = length text
  ∧ drop (r + k) (ts_text st) = drop (r + k) text
  ∧ take (ts_write_ptr st) (ts_text st) = collapse false (take k (drop r text)).
Proof.
  intros Hk.
  pose proof (trim_scan text k [] false r) as Hscan.
  simpl in Hscan. rewrite drop_0 in Hscan. rewrite Hscan by lia.
  assert (Hlen : length (collapse false (take k (drop r text))) ≤ k).
  { etrans; [apply collapse_length|].
    rewrite length_take_le; [done|]. rewrite length_drop. lia. }
  destruct (compact_shape (collapse false (take k (drop r text))) text (r + k))
    as [Hsame Hrest]; [lia | done |].
  cbn [ts_text ts_write_ptr]. split_and!; [done | done | done |].
  apply take_app_length.
Qed.

(** ** Further properties: where the cursors of [trim_all] stop *)

Lemma find_first_stops fuel : ∀ text first,
  first ≤ length text → length text - first ≤ fuel →
  Forall trimmable (take first text) →
  first ≤ find_first fuel text first
  ∧ find_first fuel text first ≤ length text
  ∧ Forall trimmable (take (find_first fuel text first) text)
  ∧ (find_first fuel text first = length text
     ∨ ∃ c, text !! find_first fuel text first = Some c
            ∧ IS_TRIMMABLE c = false).
Proof.
  induction fuel as [|fuel IH]; intros text first Hle Hfuel Hseen.
  - simpl. split_and!; [done | done | done |]. left. lia.
  - cbn [find_first]. destruct (text !! first) as [c|] eqn:Hc.
    + pose proof (lookup_lt_Some _ _ _ Hc) as Hlt.
      rewrite bool_decide_eq_true_2 by done. simpl andb.
      destruct (IS_TRIMMABLE c) eqn:Htrim.
      * destruct (IH text (S first)) as (H1 & H2 & H3 & H4); [lia | lia | |].
        { rewrite (take_S_r _ _ _ Hc). apply Forall_app. split; [done|].
          by constructor. }
        split_and!; [lia | done | done | done].
      * split_and!; [done | lia | done |]. right. by exists c.
    + apply lookup_ge_None in Hc.
      split_and!; [done | done | done |]. left. lia.
Qed.

Lemma find_last_stops fuel : ∀ text first last,
  first ≤ last → last ≤ length text → last - first ≤ fuel →
  Forall trimmable (drop last text) →
  first ≤ find_last fuel text first last
  ∧ find_last fuel text first last ≤ last
  ∧ Forall trimmable (drop (find_last fuel text first last) text)
  ∧ (find_last fuel text first last = first
     ∨ ∃ c, text !! (find_last fuel text first last - 1) = Some c
            ∧ IS_TRIMMABLE c = false).
Proof.
  induction fuel as [|fuel IH]; intros text first last Hfl Hle Hfuel Hseen.
  - simpl. split_and!; [done | done | done |]. left. lia.
  - cbn [find_last]. case_bool_decide as Hlt.
    + destruct (lookup_lt_is_Some_2 text (last - 1)) as [c Hc]; [lia|].
      rewrite Hc. destruct (IS_TRIMMABLE c) eqn:Htrim.
      * destruct (IH text first (last - 1)) as (H1 & H2 & H3 & H4);
          [lia | lia | lia | |].
        { rewrite (drop_S _ _ _ Hc).
          replace (S (last - 1)) with last by lia. by constructor. }
        split_and!; [done | lia | done | done].
      * split_and!; [done | done | done |]. right. by exists c.
    + split_and!; [done | done | done |]. left. lia.
Qed.

(** X3. Where the cursors of [trim_all] stop, with the fuel [trim_all] gives
    them: [first] is inside the buffer, everything before it is trimmable and
    it is the end or sits on a byte that is not trimmable; [last], searched
    from the end down to [first], stays between [first] and the end,
    everything from it on is trimmable, and it is [first] or sits just after a
    byte that is not trimmable. *)
Theorem trim_cursors_stop (text : list byte) :
  let first := find_first (length text) text 0 in
  let last := find_last (length text) text first (length text) in
  first ≤ length text
  ∧ Forall trimmable (take first text)
  ∧ (first = length text
     ∨ ∃ c, text !! first = Some c ∧ IS_TRIMMABLE c = false)
  ∧ first ≤ last ∧ last ≤ length text
  ∧ Forall trimmable (drop last text)
  ∧ (last = first
     ∨ ∃ c, text !! (last - 1) = Some c ∧ IS_TRIMMABLE c = false).
Proof.
  intros first last.
  destruct (find_first_stops (length text) text 0) as (_ & Hf2 & Hf3 & Hf4);
    [lia | lia | by constructor |].
  fold first in Hf2, Hf3, Hf4.
  destruct (find_last_stops (length text) text first (length text))
    as (Hl1 & Hl2 & Hl3 & Hl4); [done | done | lia | |].
  { rewrite drop_all. by constructor. }
  fold last in Hl1, Hl2, Hl3, Hl4.
  split_and!; done.
Qed.

(** ** Further properties: the replace-or-remove and replacement transforms *)

Lemma once_cases text (rules : gmap byte (option byte)) :
  ascii_char_replace_remove_once text rules
  = if decide (rules = ∅) then text
    else filter (fun m => m ≠ Constants.REMOVAL_SENTINEL)
                (rule_target rules <$> text).
Proof.
  case_decide as He.
  - subst rules. apply ascii_char_replace_remove_once_empty_rules.
  - by apply ascii_char_replace_remove_once_scan.
Qed.

(** Bytes that map to themselves and are not the sentinel are all kept. *)
Lemma kept_fixed (f : byte → byte) (text : list byte) :
  (∀ c, c ∈ text → f c = c ∧ c ≠ Constants.REMOVAL_SENTINEL) →
  filter (fun m => m ≠ Constants.REMOVAL_SENTINEL) (f <$> text) = text.
Proof.
  induction text as [|c text IH]; intros Hfix; [done|].
  destruct (Hfix c) as [Hc Hne]; [by left|].
  rewrite fmap_cons, Hc, filter_cons_True by done.
  f_equal. apply IH. intros d Hd. apply Hfix. by right.
Qed.

Lemma elem_of_kept (f : byte → byte) (text : list byte) x :
  x ∈ filter (fun m => m ≠ Constants.REMOVAL_SENTINEL) (f <$> text)
  ↔ x ≠ Constants.REMOVAL_SENTINEL ∧ ∃ c, x = f c ∧ c ∈ text.
Proof. by rewrite list_elem_of_filter, list_elem_of_fmap. Qed.

Lemma table_at_fmap (f : byte → byte) (table : list byte) c :
  wf_table table →
  detail.table_at (f <$> table) c = f (detail.table_at table c).
Proof.
  intros Hwf. unfold detail.table_at. rewrite list_lookup_fmap.
  destruct (lookup_lt_is_Some_2 table (index_of_char c)) as [x Hx].
  { rewrite Hwf. apply index_of_char_lt. }
  by rewrite Hx.
Qed.

Lemma replacement_rules_table (replacements : gmap byte byte) :
  (detail.create_table_checked (Some <$> replacements)).1
  = detail.create_replacement_table replacements.
Proof.
  unfold detail.create_table_checked, detail.create_replacement_table.
  case_decide as He; simpl.
  - apply fmap_empty_iff in He. subst replacements.
    by rewrite map_to_list_empty.
  - by rewrite map_to_list_fmap, foldl_apply_replacement.
Qed.

(** X4. Every table transform works byte by byte: on a concatenation it
    gives the concatenation of the results, so a buffer may be processed in
    pieces. *)
Theorem transforms_distribute (a b table : list byte)
    (rules : gmap byte (option byte)) (replacements : gmap byte byte) :
  detail.replace_and_remove (a ++ b) table false
  = detail.replace_and_remove a table false
    ++ detail.replace_and_remove b table false
  ∧ detail.replace_chars (a ++ b) table
    = detail.replace_chars a table ++ detail.replace_chars b table
  ∧ ascii_char_replace_remove_once (a ++ b) rules
    = ascii_char_replace_remove_once a rules
      ++ ascii_char_replace_remove_once b rules
  ∧ ascii_replace_once (a ++ b) replacements
    = ascii_replace_once a replacements ++ ascii_replace_once b replacements.
Proof.
  split_and!.
  - rewrite !replace_and_remove_scan. apply mapped_and_kept_app.
  - rewrite !replace_chars_map. apply fmap_app.
  - rewrite !once_cases. case_decide; [done|].
    by rewrite fmap_app, filter_app.
  - rewrite !ascii_replace_once_map. apply fmap_app.
Qed.

(** X5. Frame: a buffer none of whose bytes is keyed in the rule set and that
    holds no 0x00 comes back unchanged from the replace-or-remove transform; a
    buffer none of whose bytes is keyed in the replacement map comes back
    unchanged from the pure replacement, 0x00 bytes included. *)
Theorem unkeyed_bytes_pass (text : list byte)
    (rules : gmap byte (option byte)) (replacements : gmap byte byte) :
  ((∀ c, c ∈ text → rules !! c = None ∧ c ≠ x00) →
   ascii_char_replace_remove_once text rules = text)
  ∧ ((∀ c, c ∈ text → replacements !! c = None) →
     ascii_replace_once text replacements = text).
Proof.
  split.
  - intros Hfree. rewrite once_cases. case_decide; [done|].
    apply kept_fixed. intros c Hc. destruct (Hfree c Hc) as [Hnone Hne].
    split; [|done]. unfold rule_target. by rewrite Hnone.
  - intros Hfree. rewrite ascii_replace_once_map.
    rewrite <- (list_fmap_id text) at 2. apply list_fmap_ext.
    intros i c Hc. unfold replacement_target.
    rewrite (Hfree c); [done|]. by eapply list_elem_of_lookup_2.
Qed.

(** X6. A non-empty rule set that only removes is a filter: the result is the
    input without the keyed bytes and without 0x00, rest in order. *)
Theorem removal_rules_filter (text : list byte)
    (rules : gmap byte (option byte)) :
  rules ≠ ∅ → (∀ c action, rules !! c = Some action → action = None) →
  ascii_char_replace_remove_once text rules
  = filter (fun c => rules !! c = None ∧ c ≠ x00) text.
Proof.
  intros Hne Hremove. rewrite ascii_char_replace_remove_once_scan by done.
  induction text as [|c text IH]; [done|].
  rewrite fmap_cons. unfold rule_target at 1.
  destruct (rules !! c) as [action|] eqn:Hc.
  - rewrite (Hremove c action Hc).
    rewrite filter_cons_False by (intros Hx; by apply Hx).
    rewrite (filter_cons_False _ c); [done|].
    rewrite Hc. by intros [? _].
  - destruct (decide (c = x00)) as [->|Hnz].
    + rewrite filter_cons_False by (intros Hx; by apply Hx).
      rewrite (filter_cons_False _ x00); [done|]. by intros [_ ?].
    + rewrite filter_cons_True by done.
      rewrite (filter_cons_True _ c) by by rewrite Hc.
      by rewrite IH.
Qed.

(** X7. A byte marked for removal does not occur in the result, provided no
    rule has it as its replacement. *)
Theorem removed_byte_absent (text : list byte)
    (rules : gmap byte (option byte)) (b : byte) :
  rules !! b = Some None → (∀ c, rules !! c ≠ Some (Some b)) →
  b ∉ ascii_char_replace_remove_once text rules.
Proof.
  intros Hb Hfresh Hin.
  assert (Hne : rules ≠ ∅) by (intros ->; by rewrite lookup_empty in Hb).
  rewrite ascii_char_replace_remove_once_scan in Hin by done.
  apply elem_of_kept in Hin as (Hnz & c & Heq & _).
  unfold rule_target in Heq.
  destruct (rules !! c) as [[r|]|] eqn:Hc.
  - subst r. by apply (Hfresh c).
  - by apply Hnz.
  - subst c. congruence.
Qed.

(** X8. The transforms invent no byte: a byte of the result is an unkeyed byte
    of the input or the replacement of a keyed byte of the input. *)
Theorem output_bytes_origin (text : list byte)
    (rules : gmap byte (option byte)) (replacements : gmap byte byte)
    (x : byte) :
  (x ∈ ascii_char_replace_remove_once text rules →
   (x ∈ text ∧ rules !! x = None)
   ∨ ∃ c, c ∈ text ∧ rules !! c = Some (Some x))
  ∧ (x ∈ ascii_replace_once text replacements →
     (x ∈ text ∧ replacements !! x = None)
     ∨ ∃ c, c ∈ text ∧ replacements !! c = Some x).
Proof.
  split.
  - rewrite once_cases. case_decide as He.
    + subst rules. intros Hin. left. by rewrite lookup_empty.
    + intros Hin. apply elem_of_kept in Hin as (Hnz & c & Heq & Hc).
      unfold rule_target in Heq. destruct (rules !! c) as [[r|]|] eqn:Hr.
      * subst r. right. by exists c.
      * by destruct Hnz.
      * subst c. by left.
  - rewrite ascii_replace_once_map. intros Hin.
    apply list_elem_of_fmap in Hin as (c & Heq & Hc).
    unfold replacement_target in Heq.
    destruct (replacements !! c) as [r|] eqn:Hr; simpl in Heq.
    + subst r. right. by exists c.
    + subst c. by left.
Qed.

(** X9. When no replacement byte is itself keyed in the rule set, the
    replace-or-remove transform is idempotent. *)
Theorem replace_remove_idempotent (text : list byte)
    (rules : gmap byte (option byte)) :
  (∀ c r, rules !! c = Some (Some r) → rules !! r = None) →
  ascii_char_replace_remove_once
    (ascii_char_replace_remove_once text rules) rules
  = ascii_char_replace_remove_once text rules.
Proof.
  intros Hclosed. rewrite !once_cases. case_decide as He; [done|].
  apply kept_fixed. intros x Hin.
  apply elem_of_kept in Hin as (Hnz & c & Heq & _). split; [|done].
  unfold rule_target in Heq. unfold rule_target at 1.
  destruct (rules !! c) as [[r|]|] eqn:Hr.
  - subst r. by rewrite (Hclosed c x Hr).
  - by destruct Hnz.
  - subst c. by rewrite Hr.
Qed.

(** X10. Round trip: when a second replacement map sends the image of every
    byte of the buffer back to that byte, replacing with the first map and
    then with the second restores the buffer. *)
Theorem replace_round_trip (text : list byte)
    (forth back : gmap byte byte) :
  (∀ c, c ∈ text →
        default (default c (forth !! c)) (back !! default c (forth !! c)) = c) →
  ascii_replace_once (ascii_replace_once text forth) back = text.
Proof.
  intros Hinv. rewrite !ascii_replace_once_map, <- list_fmap_compose.
  rewrite <- (list_fmap_id text) at 2. apply list_fmap_ext.
  intros i c Hc. simpl. unfold replacement_target.
  apply Hinv. by eapply list_elem_of_lookup_2.
Qed.

(** X11. A rule set that only replaces builds the table of the pure
    replacement map, and, when not empty, its transform is the pure
    replacement followed by dropping the 0x00 bytes. *)
Theorem replacement_rules_agree (text : list byte)
    (replacements : gmap byte byte) :
  (detail.create_table_checked (Some <$> replacements)).1
  = detail.create_replacement_table replacements
  ∧ (replacements ≠ ∅ →
     ascii_char_replace_remove_once text (Some <$> replacements)
     = filter (fun m => m ≠ x00) (ascii_replace_once text replacements)).
Proof.
  split; [apply replacement_rules_table|].
  intros Hne. rewrite ascii_char_replace_remove_once_unfold.
  rewrite replacement_rules_table, create_table_checked_flag.
  rewrite bool_decide_eq_false_2 by by rewrite fmap_empty_iff.
  rewrite replace_and_remove_scan, ascii_replace_once_map.
  unfold mapped_and_kept. f_equal. apply list_fmap_ext.
  intros i c _. apply create_replacement_table_at.
Qed.

(** X12. Two replacement passes fuse into one: running [replace_chars] on the
    first table itself gives the table of the composition. *)
Theorem replace_chars_fuse (text table1 table2 : list byte) :
  wf_table table1 →
  wf_table (detail.replace_chars table1 table2)
  ∧ (∀ c, detail.table_at (detail.replace_chars table1 table2) c
          = detail.table_at table2 (detail.table_at table1 c))
  ∧ detail.replace_chars (detail.replace_chars text table1) table2
    = detail.replace_chars text (detail.replace_chars table1 table2).
Proof.
  intros Hwf. rewrite !replace_chars_map. split_and!.
  - unfold wf_table. by rewrite length_fmap.
  - intros c. by apply table_at_fmap.
  - rewrite <- list_fmap_compose. apply list_fmap_ext.
    intros i c _. simpl. by rewrite table_at_fmap.
Qed.

(** X13. The identity flag follows the rule set, not the table: a non-empty
    rule set whose rules all replace a byte by itself builds the identity
    table, yet its transform is not the identity, it drops the 0x00 bytes. *)
Theorem self_rules_drop_nul (text : list byte)
    (rules : gmap byte (option byte)) :
  rules ≠ ∅ → (∀ c action, rules !! c = Some action → action = Some c) →
  detail.create_table_checked rules = (detail.prepare_identity_table, false)
  ∧ ascii_char_replace_remove_once text rules = filter (fun c => c ≠ x00) text.
Proof.
  intros Hne Hself.
  assert (Htarget : ∀ c, rule_target rules c = c).
  { intros c. unfold rule_target.
    destruct (rules !! c) as [action|] eqn:Hc; [|done].
    by rewrite (Hself c action Hc). }
  split.
  - rewrite create_table_checked_nonempty by done. f_equal.
    apply table_ext.
    + apply foldl_apply_rule_wf, prepare_identity_table_wf.
    + apply prepare_identity_table_wf.
    + intros c. rewrite (foldl_apply_rule_map rules) by done.
      by rewrite table_at_identity.
  - rewrite ascii_char_replace_remove_once_scan by done. f_equal.
    rewrite <- (list_fmap_id text) at 2. apply list_fmap_ext.
    intros i c _. apply Htarget.
Qed.

(** X19. The two fast-path guards differ: the empty-map guard of
    [ascii_replace_once] only saves work, the scan with the table of any map
    gives the same buffer; the identity flag of [replace_and_remove] changes
    the result, since the scan with the identity table and the flag off drops
    the 0x00 bytes, and with the flag off no table leaves a 0x00 behind. *)
Theorem guards_compared (text table : list byte)
    (replacements : gmap byte byte) :
  detail.replace_chars text (detail.create_replacement_table replacements)
  = ascii_replace_once text replacements
  ∧ detail.replace_and_remove text detail.prepare_identity_table false
    = filter (fun c => c ≠ x00) text
  ∧ detail.replace_and_remove text detail.prepare_identity_table true = text
  ∧ x00 ∉ detail.replace_and_remove text table false.
Proof.
  split_and!.
  - rewrite replace_chars_map, ascii_replace_once_map.
    apply list_fmap_ext. intros i c _. apply create_replacement_table_at.
  - rewrite replace_and_remove_scan. unfold mapped_and_kept. f_equal.
    rewrite <- (list_fmap_id text) at 2. apply list_fmap_ext.
    intros i c _. apply table_at_identity.
  - apply replace_and_remove_identity.
  - rewrite replace_and_remove_scan. apply sentinel_not_kept.
Qed.

(** ** Further properties: what [trim_all] returns *)

Lemma layout_trimmed_collapse y :
  wf_layout y → layout_trimmed y = collapse false (layout_body y).
Proof.
  intros (_ & Hinner & Hword & _). symmetry.
  by apply collapse_layout_body.
Qed.

Lemma layout_trimmed_body y : layout_trimmed y = layout_body (layout_normal y).
Proof.
  rewrite <- layout_normal_text. unfold layout_text. simpl.
  by rewrite app_nil_r.
Qed.

Lemma layout_trimmed_nonempty y : wf_layout y → layout_trimmed y ≠ [].
Proof.
  intros (_ & _ & [Hne _] & _). unfold layout_trimmed.
  intros Hnil. apply app_eq_nil in Hnil as [_ Hnil]. by apply Hne.
Qed.

Lemma collapse_seen_head l : ∀ d rest,
  collapse true l = d :: rest → IS_TRIMMABLE d = false.
Proof.
  induction l as [|c l IH]; intros d rest Heq; [done|].
  simpl in Heq. destruct (IS_TRIMMABLE c) eqn:Hc.
  - by eapply IH.
  - by injection Heq as <- _.
Qed.

Lemma collapse_no_adjacent l : ∀ prev i c d,
  collapse prev l !! i = Some c → collapse prev l !! S i = Some d →
  IS_TRIMMABLE c = true → IS_TRIMMABLE d = false.
Proof.
  induction l as [|c0 l IH]; intros prev i c d Hc Hd Htrim; [done|].
  simpl in Hc, Hd. destruct (IS_TRIMMABLE c0) eqn:Hc0; [destruct prev|].
  - exact (IH true i c d Hc Hd Htrim).
  - destruct i as [|i].
    + simpl in Hd. destruct (collapse true l) as [|d' rest] eqn:Hrest; [done|].
      injection Hd as <-. exact (collapse_seen_head l d' rest Hrest).
    + simpl in Hc, Hd. exact (IH true i c d Hc Hd Htrim).
  - destruct i as [|i].
    + simpl in Hc. injection Hc as <-. congruence.
    + simpl in Hc, Hd. exact (IH false i c d Hc Hd Htrim).
Qed.

Lemma collapse_only_space l : ∀ prev c,
  c ∈ collapse prev l → IS_TRIMMABLE c = true → c = x20.
Proof.
  induction l as [|c0 l IH]; intros prev c Hin Htrim.
  - by apply elem_of_nil in Hin.
  - simpl in Hin. destruct (IS_TRIMMABLE c0) eqn:Hc0; [destruct prev|].
    + exact (IH true c Hin Htrim).
    + apply elem_of_cons in Hin as [->|Hin]; [done|].
      exact (IH true c Hin Htrim).
    + apply elem_of_cons in Hin as [->|Hin]; [congruence|].
      exact (IH false c Hin Htrim).
Qed.

Lemma filter_collapse l : ∀ prev,
  filter (fun c => IS_TRIMMABLE c = false) (collapse prev l)
  = filter (fun c => IS_TRIMMABLE c = false) l.
Proof.
  induction l as [|c l IH]; intros prev; [done|].
  simpl. destruct (IS_TRIMMABLE c) eqn:Hc; [destruct prev|].
  - rewrite (filter_cons_False _ c) by congruence. apply IH.
  - rewrite (filter_cons_False _ c) by congruence.
    rewrite (filter_cons_False _ x20) by done. apply IH.
  - rewrite !(filter_cons_True _ c) by done. by rewrite IH.
Qed.

Lemma filter_only_trimmable l :
  Forall trimmable l → filter (fun c => IS_TRIMMABLE c = false) l = [].
Proof.
  induction 1 as [|c l Hc _ IH]; [done|].
  unfold trimmable in Hc. by rewrite filter_cons_False by congruence.
Qed.

(** X14. The result of [trim_all] is in normal form: it neither starts nor
    ends with a trimmable byte, its only trimmable bytes are spaces 0x20, and
    no two of them are adjacent. *)
Theorem trim_all_normal_form (text : list byte) :
  (∀ c, head (trim_all text) = Some c → IS_TRIMMABLE c = false)
  ∧ (∀ c, last (trim_all text) = Some c → IS_TRIMMABLE c = false)
  ∧ (∀ c, c ∈ trim_all text → IS_TRIMMABLE c = true → c = x20)
  ∧ (∀ i c d, trim_all text !! i = Some c → trim_all text !! S i = Some d →
              IS_TRIMMABLE c = true → IS_TRIMMABLE d = false).
Proof.
  destruct (layout_exists text) as [Hall|(y & Hwf & <-)].
  - rewrite trim_all_only_trimmable by done. split_and!.
    + done.
    + done.
    + intros c Hin. by apply elem_of_nil in Hin.
    + done.
  - rewrite trim_all_layout by done.
    pose proof (layout_normal_wf y Hwf) as Hnwf.
    split_and!.
    + intros c Hhead. rewrite layout_trimmed_body in Hhead.
      destruct (layout_body_head _ Hnwf) as (c' & rest & Heq & Hc').
      rewrite Heq in Hhead. simpl in Hhead. congruence.
    + intros c Hlast. rewrite layout_trimmed_body in Hlast.
      destruct (layout_body_last _ Hnwf) as (body & c' & Heq & Hc').
      rewrite Heq, last_snoc in Hlast. congruence.
    + rewrite layout_trimmed_collapse by done. apply collapse_only_space.
    + rewrite layout_trimmed_collapse by done. apply collapse_no_adjacent.
Qed.

(** X15. [trim_all] keeps every byte that is not trimmable, in order: the
    subsequence of such bytes is the same before and after. *)
Theorem trim_all_keeps_bytes (text : list byte) :
  filter (fun c => IS_TRIMMABLE c = false) (trim_all text)
  = filter (fun c => IS_TRIMMABLE c = false) text.
Proof.
  destruct (layout_exists text) as [Hall|(y & Hwf & <-)].
  - rewrite trim_all_only_trimmable by done.
    by rewrite (filter_only_trimmable text).
  - rewrite trim_all_layout, layout_trimmed_collapse by done.
    destruct Hwf as (Hlead & _ & _ & Htrail).
    unfold layout_text. rewrite filter_collapse, !filter_app.
    rewrite (filter_only_trimmable (lead y)) by done.
    rewrite (filter_only_trimmable (trail y)) by done.
    by rewrite app_nil_r.
Qed.

(** X16. Trimmable bytes around a buffer do not matter to [trim_all]. *)
Theorem trim_all_ignores_margins (before text after : list byte) :
  Forall trimmable before → Forall trimmable after →
  trim_all (before ++ text ++ after) = trim_all text.
Proof.
  intros Hbefore Hafter.
  destruct (layout_exists text) as [Hall|(y & Hwf & <-)].
  - rewrite !trim_all_only_trimmable; [done | done |].
    by rewrite !Forall_app.
  - destruct Hwf as (Hlead & Hinner & Hword & Htrail).
    rewrite (trim_all_layout y) by done.
    assert (Hwf' : wf_layout (Layout (before ++ lead y) (inner y)
                                     (last_word y) (trail y ++ after))).
    { apply wf_layout_intro; [by apply Forall_app | done | done |].
      by apply Forall_app. }
    transitivity (trim_all (layout_text
      (Layout (before ++ lead y) (inner y) (last_word y) (trail y ++ after)))).
    + f_equal. unfold layout_text, layout_body. simpl.
      by rewrite <- !app_assoc.
    + by rewrite (trim_all_layout _ Hwf').
Qed.

(** X17. [trim_all] returns the empty buffer exactly for the buffers that
    hold trimmable bytes only, and returns a buffer without trimmable bytes
    as it is. *)
Theorem trim_all_empty_iff (text : list byte) :
  (trim_all text = [] ↔ Forall trimmable text)
  ∧ (Forall (fun c => IS_TRIMMABLE c = false) text → trim_all text = text).
Proof.
  split; [split|].
  - destruct (layout_exists text) as [Hall|(y & Hwf & <-)]; [done|].
    rewrite trim_all_layout by done. intros Hnil.
    by apply layout_trimmed_nonempty in Hnil.
  - apply trim_all_only_trimmable.
  - intros Hword. destruct text as [|c text]; [done|].
    assert (Hwf : wf_layout (Layout [] [] (c :: text) [])).
    { apply wf_layout_intro; [by constructor | by constructor | | by constructor].
      by split. }
    pose proof (trim_all_layout _ Hwf) as Htrim.
    unfold layout_text, layout_body, layout_trimmed in Htrim. simpl in Htrim.
    by rewrite app_nil_r in Htrim.
Qed.

(** X18. [trim_all] splits at a gap: for two buffers that each hold a byte
    that is not trimmable, joined by a non-empty run of trimmable bytes, the
    result is the two trimmed buffers with one space between them. *)
Theorem trim_all_splits_at_gap (a gap b : list byte) :
  ¬ Forall trimmable a → ¬ Forall trimmable b → is_gap gap →
  trim_all (a ++ gap ++ b) = trim_all a ++ x20 :: trim_all b.
Proof.
  intros Ha Hb [Hgne Hgap].
  destruct (layout_exists a) as [Hall|(ya & Hwfa & <-)]; [done|].
  destruct (layout_exists b) as [Hall|(yb & Hwfb & <-)]; [done|].
  rewrite (trim_all_layout ya), (trim_all_layout yb) by done.
  destruct Hwfa as (Hlead_a & Hinner_a & Hword_a & Htrail_a).
  destruct Hwfb as (Hlead_b & Hinner_b & Hword_b & Htrail_b).
  assert (Hwf : wf_layout
    (Layout (lead ya)
            (inner ya ++ (last_word ya, trail ya ++ gap ++ lead yb) :: inner yb)
            (last_word yb) (trail yb))).
  { apply wf_layout_intro; [done | | done | done].
    apply Forall_app. split; [done|]. constructor; [|done].
    split; [done|]. split.
    - simpl. intros Hnil. apply app_eq_nil in Hnil as [_ Hnil].
      apply app_eq_nil in Hnil as [Hnil _]. by apply Hgne.
    - simpl. by rewrite !Forall_app. }
  transitivity (trim_all (layout_text
    (Layout (lead ya)
            (inner ya ++ (last_word ya, trail ya ++ gap ++ lead yb) :: inner yb)
            (last_word yb) (trail yb)))).
  - f_equal. unfold layout_text, layout_body.
    cbn [lead inner last_word trail].
    rewrite fmap_app, concat_app, fmap_cons. cbn [concat fst snd].
    by rewrite <- !app_assoc.
  - rewrite (trim_all_layout _ Hwf). unfold layout_trimmed.
    cbn [lead inner last_word trail].
    rewrite fmap_app, concat_app, fmap_cons. cbn [concat fst snd].
    by rewrite <- !app_assoc.
Qed.

(** ** The further conditional properties at concrete inputs *)

(** Membership hypotheses over a concrete buffer, byte by byte. *)
Ltac each_byte c Hc :=
  repeat (apply elem_of_cons in Hc as [->|Hc]);
  [.. | by apply elem_of_nil in Hc].

(** ["a-b"] under a table that drops ['-'], after two iterations. *)
Lemma rr_scan_invariant_witness :
  2 ≤ length [x61; x2d; x62]
  ∧ (foldl (detail.rr_step (detail.create_table_checked {[ x2d := None ]}).1)
           ([x61; x2d; x62], 0) (seq 0 2)).2 ≤ 2
  ∧ drop 2 (foldl (detail.rr_step
                     (detail.create_table_checked {[ x2d := None ]}).1)
                  ([x61; x2d; x62], 0) (seq 0 2)).1
    = drop 2 [x61; x2d; x62].
Proof.
  assert (Hk : 2 ≤ length [x61; x2d; x62]) by (simpl; lia).
  destruct (rr_scan_invariant
              (detail.create_table_checked {[ x2d := None ]}).1
              [x61; x2d; x62] 2 Hk) as (Hw & _ & Hrest & _).
  split; [exact Hk|]. split; [exact Hw | exact Hrest].
Defined.

(** [" a  b "] read from position 1 for four bytes. *)
Lemma trim_scan_invariant_witness :
  1 + 4 ≤ length [x20; x61; x20; x20; x62; x20]
  ∧ ts_write_ptr (foldl trim_step
                    (TrimState [x20; x61; x20; x20; x62; x20] 0 false)
                    (seq 1 4)) ≤ 4
  ∧ length (ts_text (foldl trim_step
                       (TrimState [x20; x61; x20; x20; x62; x20] 0 false)
                       (seq 1 4)))
    = length [x20; x61; x20; x20; x62; x20].
Proof.
  assert (Hk : 1 + 4 ≤ length [x20; x61; x20; x20; x62; x20]) by (simpl; lia).
  destruct (trim_scan_invariant [x20; x61; x20; x20; x62; x20] 1 4 Hk)
    as (Hw & Hlen & _ & _).
  split; [exact Hk|]. split; [exact Hw | exact Hlen].
Defined.

(** ["ab"] under [{'-': remove}] and under [{'-': '+'}]. *)
Lemma unkeyed_bytes_pass_witness :
  (∀ c, c ∈ [x61; x62] →
        ({[ x2d := None ]} : gmap byte (option byte)) !! c = None ∧ c ≠ x00)
  ∧ ascii_char_replace_remove_once [x61; x62] {[ x2d := None ]} = [x61; x62]
  ∧ (∀ c, c ∈ [x61; x62] → ({[ x2d := x2b ]} : gmap byte byte) !! c = None)
  ∧ ascii_replace_once [x61; x62] {[ x2d := x2b ]} = [x61; x62].
Proof.
  assert (Hfree : ∀ c, c ∈ [x61; x62] →
            ({[ x2d := None ]} : gmap byte (option byte)) !! c = None
            ∧ c ≠ x00).
  { intros c Hc. each_byte c Hc; (split; [vm_compute; reflexivity | discriminate]). }
  assert (Hfree' : ∀ c, c ∈ [x61; x62] →
            ({[ x2d := x2b ]} : gmap byte byte) !! c = None).
  { intros c Hc. each_byte c Hc; vm_compute; reflexivity. }
  destruct (unkeyed_bytes_pass [x61; x62] {[ x2d := None ]} {[ x2d := x2b ]})
    as [Hrules Hrepl].
  split; [exact Hfree|]. split; [exact (Hrules Hfree)|].
  split; [exact Hfree' | exact (Hrepl Hfree')].
Defined.

(** [a - 0x00 b] under [{'-': remove}]. *)
Lemma removal_rules_filter_witness :
  ({[ x2d := None ]} : gmap byte (option byte)) ≠ ∅
  ∧ (∀ c action, ({[ x2d := None ]} : gmap byte (option byte)) !! c
                 = Some action → action = None)
  ∧ ascii_char_replace_remove_once [x61; x2d; x00; x62] {[ x2d := None ]}
    = filter (fun c => ({[ x2d := None ]} : gmap byte (option byte)) !! c
                       = None ∧ c ≠ x00) [x61; x2d; x00; x62].
Proof.
  assert (Hne : ({[ x2d := None ]} : gmap byte (option byte)) ≠ ∅).
  { apply (bool_decide_eq_false_1 _). vm_compute. reflexivity. }
  assert (Hremove : ∀ c action,
            ({[ x2d := None ]} : gmap byte (option byte)) !! c = Some action →
            action = None).
  { intros c action Hc. apply lookup_singleton_Some in Hc as [_ <-]. done. }
  split; [exact Hne|]. split; [exact Hremove|].
  exact (removal_rules_filter [x61; x2d; x00; x62] _ Hne Hremove).
Defined.

(** ["a-b"] under [{'-': remove}]: no ['-'] is left. *)
Lemma removed_byte_absent_witness :
  ({[ x2d := None ]} : gmap byte (option byte)) !! x2d = Some None
  ∧ (∀ c, ({[ x2d := None ]} : gmap byte (option byte)) !! c
          ≠ Some (Some x2d))
  ∧ x2d ∉ ascii_char_replace_remove_once [x61; x2d; x62] {[ x2d := None ]}.
Proof.
  assert (Hb : ({[ x2d := None ]} : gmap byte (option byte)) !! x2d
               = Some None) by (vm_compute; reflexivity).
  assert (Hfresh : ∀ c, ({[ x2d := None ]} : gmap byte (option byte)) !! c
                        ≠ Some (Some x2d)).
  { intros c Hc. apply lookup_singleton_Some in Hc as [_ Hc]. discriminate. }
  split; [exact Hb|]. split; [exact Hfresh|].
  exact (removed_byte_absent [x61; x2d; x62] _ x2d Hb Hfresh).
Defined.

(** ["a2"] under [{'2': '!'}] in both transforms: ['!'] comes from ['2']. *)
Lemma output_bytes_origin_witness :
  x21 ∈ ascii_char_replace_remove_once [x61; x32] {[ x32 := Some x21 ]}
  ∧ x21 ∈ ascii_replace_once [x61; x32] {[ x32 := x21 ]}
  ∧ ((x21 ∈ [x61; x32]
      ∧ ({[ x32 := Some x21 ]} : gmap byte (option byte)) !! x21 = None)
     ∨ ∃ c, c ∈ [x61; x32]
            ∧ ({[ x32 := Some x21 ]} : gmap byte (option byte)) !! c
              = Some (Some x21))
  ∧ ((x21 ∈ [x61; x32] ∧ ({[ x32 := x21 ]} : gmap byte byte) !! x21 = None)
     ∨ ∃ c, c ∈ [x61; x32]
            ∧ ({[ x32 := x21 ]} : gmap byte byte) !! c = Some x21).
Proof.
  assert (Hin : x21 ∈ ascii_char_replace_remove_once [x61; x32]
                        {[ x32 := Some x21 ]}).
  { apply (bool_decide_unpack _). vm_compute. exact I. }
  assert (Hin' : x21 ∈ ascii_replace_once [x61; x32] {[ x32 := x21 ]}).
  { apply (bool_decide_unpack _). vm_compute. exact I. }
  destruct (output_bytes_origin [x61; x32] {[ x32 := Some x21 ]}
              {[ x32 := x21 ]} x21) as [Hrules Hrepl].
  split; [exact Hin|]. split; [exact Hin'|].
  split; [exact (Hrules Hin) | exact (Hrepl Hin')].
Defined.

(** ["a2b2"] under [{'2': '!'}], applied twice. *)
Lemma replace_remove_idempotent_witness :
  (∀ c r, ({[ x32 := Some x21 ]} : gmap byte (option byte)) !! c
          = Some (Some r) →
          ({[ x32 := Some x21 ]} : gmap byte (option byte)) !! r = None)
  ∧ ascii_char_replace_remove_once
      (ascii_char_replace_remove_once [x61; x32; x62; x32]
         {[ x32 := Some x21 ]}) {[ x32 := Some x21 ]}
    = ascii_char_replace_remove_once [x61; x32; x62; x32]
        {[ x32 := Some x21 ]}.
Proof.
  assert (Hclosed : ∀ c r,
            ({[ x32 := Some x21 ]} : gmap byte (option byte)) !! c
            = Some (Some r) →
            ({[ x32 := Some x21 ]} : gmap byte (option byte)) !! r = None).
  { intros c r Hc. apply lookup_singleton_Some in Hc as [_ Hc].
    injection Hc as <-. vm_compute. reflexivity. }
  split; [exact Hclosed|].
  exact (replace_remove_idempotent [x61; x32; x62; x32] _ Hclosed).
Defined.

(** ["ab"] under [{'a': 'b', 'b': 'a'}], applied twice. *)
Lemma replace_round_trip_witness :
  (∀ c, c ∈ [x61; x62] →
        default (default c ((<[ x61 := x62 ]> {[ x62 := x61 ]}
                              : gmap byte byte) !! c))
                ((<[ x61 := x62 ]> {[ x62 := x61 ]} : gmap byte byte)
                   !! default c ((<[ x61 := x62 ]> {[ x62 := x61 ]}
                                    : gmap byte byte) !! c)) = c)
  ∧ ascii_replace_once
      (ascii_replace_once [x61; x62] (<[ x61 := x62 ]> {[ x62 := x61 ]}))
      (<[ x61 := x62 ]> {[ x62 := x61 ]})
    = [x61; x62].
Proof.
  assert (Hinv : ∀ c, c ∈ [x61; x62] →
            default (default c ((<[ x61 := x62 ]> {[ x62 := x61 ]}
                                  : gmap byte byte) !! c))
                    ((<[ x61 := x62 ]> {[ x62 := x61 ]} : gmap byte byte)
                       !! default c ((<[ x61 := x62 ]> {[ x62 := x61 ]}
                                        : gmap byte byte) !! c)) = c).
  { intros c Hc. each_byte c Hc; vm_compute; reflexivity. }
  split; [exact Hinv|].
  exact (replace_round_trip [x61; x62] _ _ Hinv).
Defined.

(** [a 0x00 2] under the replacement-only rule set [{'2': '!'}]. *)
Lemma replacement_rules_agree_witness :
  ({[ x32 := x21 ]} : gmap byte byte) ≠ ∅
  ∧ ascii_char_replace_remove_once [x61; x00; x32] (Some <$> {[ x32 := x21 ]})
    = filter (fun m => m ≠ x00)
             (ascii_replace_once [x61; x00; x32] {[ x32 := x21 ]}).
Proof.
  assert (Hne : ({[ x32 := x21 ]} : gmap byte byte) ≠ ∅).
  { apply (bool_decide_eq_false_1 _). vm_compute. reflexivity. }
  split; [exact Hne|].
  exact (proj2 (replacement_rules_agree [x61; x00; x32] _) Hne).
Defined.

(** ["a"] through the tables of [{'a': 'b'}] and [{'b': 'c'}]. *)
Lemma replace_chars_fuse_witness :
  wf_table (detail.create_replacement_table {[ x61 := x62 ]})
  ∧ detail.replace_chars
      (detail.replace_chars [x61]
         (detail.create_replacement_table {[ x61 := x62 ]}))
      (detail.create_replacement_table {[ x62 := x63 ]})
    = detail.replace_chars [x61]
        (detail.replace_chars
           (detail.create_replacement_table {[ x61 := x62 ]})
           (detail.create_replacement_table {[ x62 := x63 ]})).
Proof.
  assert (Hwf : wf_table (detail.create_replacement_table {[ x61 := x62 ]})).
  { vm_compute. reflexivity. }
  destruct (replace_chars_fuse [x61]
              (detail.create_replacement_table {[ x61 := x62 ]})
              (detail.create_replacement_table {[ x62 := x63 ]}) Hwf)
    as (_ & _ & Hfuse).
  split; [exact Hwf | exact Hfuse].
Defined.

(** [a 0x00 b] under [{'a': 'a'}]. *)
Lemma self_rules_drop_nul_witness :
  ({[ x61 := Some x61 ]} : gmap byte (option byte)) ≠ ∅
  ∧ (∀ c action, ({[ x61 := Some x61 ]} : gmap byte (option byte)) !! c
                 = Some action → action = Some c)
  ∧ ascii_char_replace_remove_once [x61; x00; x62] {[ x61 := Some x61 ]}
    = filter (fun c => c ≠ x00) [x61; x00; x62].
Proof.
  assert (Hne : ({[ x61 := Some x61 ]} : gmap byte (option byte)) ≠ ∅).
  { apply (bool_decide_eq_false_1 _). vm_compute. reflexivity. }
  assert (Hself : ∀ c action,
            ({[ x61 := Some x61 ]} : gmap byte (option byte)) !! c
            = Some action → action = Some c).
  { intros c action Hc. apply lookup_singleton_Some in Hc as [<- <-]. done. }
  split; [exact Hne|]. split; [exact Hself|].
  exact (proj2 (self_rules_drop_nul [x61; x00; x62] _ Hne Hself)).
Defined.

(** [" a \t b "] trims to ["a b"]. *)
Lemma trim_all_normal_form_witness :
  head (trim_all [x20; x61; x20; x09; x62; x20]) = Some x61
  ∧ IS_TRIMMABLE x61 = false
  ∧ last (trim_all [x20; x61; x20; x09; x62; x20]) = Some x62
  ∧ IS_TRIMMABLE x62 = false
  ∧ x20 ∈ trim_all [x20; x61; x20; x09; x62; x20]
  ∧ trim_all [x20; x61; x20; x09; x62; x20] !! 1 = Some x20
  ∧ trim_all [x20; x61; x20; x09; x62; x20] !! 2 = Some x62.
Proof.
  assert (Hhead : head (trim_all [x20; x61; x20; x09; x62; x20]) = Some x61)
    by (vm_compute; reflexivity).
  assert (Hlast : last (trim_all [x20; x61; x20; x09; x62; x20]) = Some x62)
    by (vm_compute; reflexivity).
  assert (Hin : x20 ∈ trim_all [x20; x61; x20; x09; x62; x20]).
  { apply (bool_decide_unpack _). vm_compute. exact I. }
  assert (H1 : trim_all [x20; x61; x20; x09; x62; x20] !! 1 = Some x20)
    by (vm_compute; reflexivity).
  assert (H2 : trim_all [x20; x61; x20; x09; x62; x20] !! 2 = Some x62)
    by (vm_compute; reflexivity).
  destruct (trim_all_normal_form [x20; x61; x20; x09; x62; x20])
    as (Hh & Hl & Hsp & Hadj).
  pose proof (Hsp x20 Hin IS_TRIMMABLE_space) as _.
  split; [exact Hhead|]. split; [exact (Hh x61 Hhead)|].
  split; [exact Hlast|]. split; [exact (Hl x62 Hlast)|].
  split; [exact Hin|]. split; [exact H1|].
  pose proof (Hadj 1 x20 x62 H1 H2 IS_TRIMMABLE_space) as _.
  exact H2.
Defined.

(** ["a b"] between a tab and a backtick. *)
Lemma trim_all_ignores_margins_witness :
  Forall trimmable [x09] ∧ Forall trimmable [x60]
  ∧ trim_all ([x09] ++ [x61; x20; x62] ++ [x60]) = trim_all [x61; x20; x62].
Proof.
  assert (Hbefore : Forall trimmable [x09]).
  { unfold trimmable. repeat constructor. }
  assert (Hafter : Forall trimmable [x60]).
  { unfold trimmable. repeat constructor. }
  split; [exact Hbefore|]. split; [exact Hafter|].
  exact (trim_all_ignores_margins [x09] [x61; x20; x62] [x60] Hbefore Hafter).
Defined.

(** ["\t\n"] becomes empty, ["ab"] stays. *)
Lemma trim_all_empty_iff_witness :
  Forall trimmable [x09; x0a] ∧ trim_all [x09; x0a] = []
  ∧ Forall (fun c => IS_TRIMMABLE c = false) [x61; x62]
  ∧ trim_all [x61; x62] = [x61; x62].
Proof.
  assert (Hall : Forall trimmable [x09; x0a]).
  { unfold trimmable. repeat constructor. }
  assert (Hword : Forall (fun c => IS_TRIMMABLE c = false) [x61; x62]).
  { repeat constructor. }
  split; [exact Hall|].
  split; [exact (proj2 (proj1 (trim_all_empty_iff [x09; x0a])) Hall)|].
  split; [exact Hword|].
  exact (proj2 (trim_all_empty_iff [x61; x62]) Hword).
Defined.

(** [" a"], ["\t "] and ["b "]. *)
Lemma trim_all_splits_at_gap_witness :
  ¬ Forall trimmable [x20; x61] ∧ ¬ Forall trimmable [x62; x20]
  ∧ is_gap [x09; x20]
  ∧ trim_all ([x20; x61] ++ [x09; x20] ++ [x62; x20])
    = trim_all [x20; x61] ++ x20 :: trim_all [x62; x20].
Proof.
  assert (Ha : ¬ Forall trimmable [x20; x61]).
  { intros Hall. apply Forall_cons in Hall as [_ Hall].
    apply Forall_cons in Hall as [Hall _]. discriminate. }
  assert (Hb : ¬ Forall trimmable [x62; x20]).
  { intros Hall. apply Forall_cons in Hall as [Hall _]. discriminate. }
  assert (Hgap : is_gap [x09; x20]).
  { split; [discriminate|]. unfold trimmable. repeat constructor. }
  split; [exact Ha|]. split; [exact Hb|]. split; [exact Hgap|].
  exact (trim_all_splits_at_gap [x20; x61] [x09; x20] [x62; x20] Ha Hb Hgap).
Defined.
